(** * security_scan.py: the pattern-based security scanner of the Tribunal kit

    A shallow embedding of [.agent/scripts/security_scan.py] and the
    properties its specification states about it.

    Text.  A Python [str] is a Rocq [string]; a character is read as the
    code point of the same number, so the embedding covers text in the range
    U+0000..U+00FF.  The character classes below ([isspace], [isword],
    case folding) are those of CPython for that range.  (Beyond it a few
    characters, such as U+017F and U+212A, also match ASCII letters under
    [re.IGNORECASE].)

    Patterns.  A pattern of the catalog is kept as its syntax tree; [re] is
    a matcher over these trees.

    Files.  A file holds its bytes, or [None] when opening it raises an
    [OSError].  [open(..., encoding="utf-8", errors="ignore")] decodes the
    bytes leniently: [Utf8.decode] gives the code points, and the text keeps
    those of the range above (a code point beyond it stands as U+00FF).

    Paths.  A path is the list of its components (a doubled leading slash
    is not kept apart from a single one).  The file tree is a tree of named
    entries in the order [os.scandir] lists them; a directory may refuse to
    be listed, and an entry may be a symbolic link, kept with the place it
    leads to.

    Effects.  The program is written in a state monad over a world made of
    the file tree, the working directory and a log; the log records every
    directory listed, every [open] and every [print].

    Arguments.  [main] starts from the namespace [argparse] returns. *)

From Stdlib Require Import Ascii String NArith.
From stdpp Require Import base option list strings gmap sorting.

Local Open Scope string_scope.
Local Open Scope list_scope.
Local Open Scope nat_scope.

(** ** Characters *)

Module Char.

Definition code (c : ascii) : N := N_of_ascii c.

Definition between (lo hi : N) (c : ascii) : bool :=
  ((lo <=? code c) && (code c <=? hi))%N.

(** [str.isspace] on one character, which is also [\s] of [re] on [str]
    patterns: TAB..CR, FS..US, space, NEL and NBSP. *)
Definition isspace (c : ascii) : bool :=
  between 9 13 c || between 28 32 c || (code c =? 133)%N || (code c =? 160)%N.

Definition isupper_ascii (c : ascii) : bool := between 65 90 c.

(** Simple lower-casing of the ASCII letters, the only ones the catalog's
    patterns contain. *)
Definition lower (c : ascii) : ascii :=
  if isupper_ascii c then ascii_of_N (code c + 32) else c.

(** [\w] of [re] on [str] patterns: alphanumeric or underscore. *)
Definition isword (c : ascii) : bool :=
  between 48 57 c || between 65 90 c || between 97 122 c || (code c =? 95)%N
  || (code c =? 170)%N || (code c =? 181)%N || (code c =? 186)%N
  || between 178 179 c || (code c =? 185)%N || between 188 190 c
  || between 192 214 c || between 216 246 c || between 248 255 c.

(** The upper-case form of an ASCII letter; other characters are kept. *)
Definition upper_ascii (c : ascii) : ascii :=
  if between 97 122 c then ascii_of_N (code c - 32) else c.

(** Equality of two characters under [re.IGNORECASE]. *)
Definition eq_ci (a b : ascii) : bool := Ascii.eqb (lower a) (lower b).

End Char.

(** ** Strings *)

Module Str.

Fixpoint lstrip (s : string) : string :=
  match s with
  | String c s' => if Char.isspace c then lstrip s' else s
  | EmptyString => EmptyString
  end.

Fixpoint rstrip (s : string) : string :=
  match s with
  | String c s' =>
      match rstrip s' with
      | EmptyString => if Char.isspace c then EmptyString else String c EmptyString
      | r => String c r
      end
  | EmptyString => EmptyString
  end.

(** [s.strip()] *)
Definition strip (s : string) : string := rstrip (lstrip s).

(** [s.startswith(p)] *)
Definition startswith (s p : string) : bool := String.prefix p s.

(** [s[:n]] *)
Fixpoint slice_to (n : nat) (s : string) : string :=
  match n, s with
  | S n', String c s' => String c (slice_to n' s')
  | _, _ => EmptyString
  end.

(** The string with its ASCII letters in upper case. *)
Fixpoint upper_ascii (s : string) : string :=
  match s with
  | EmptyString => EmptyString
  | String c s' => String (Char.upper_ascii c) (upper_ascii s')
  end.

(** Every character of the string is white space. *)
Fixpoint all_space (s : string) : bool :=
  match s with
  | String c s' => Char.isspace c && all_space s'
  | EmptyString => true
  end.

(** The double quote, as a one-character string. *)
Definition dq : string := String "034" EmptyString.

End Str.

(** ** Decoding

    The bytes of a file are a [string], one character per byte.
    [decode] is the UTF-8 decoder with [errors="ignore"], applied to the
    whole content: a well-formed sequence gives its code point; where no
    well-formed sequence starts, the bytes in error are skipped (the lead
    byte alone, or with the continuation bytes that were accepted, or
    everything left when the data ends inside a sequence) and decoding
    goes on after them. *)

Module Utf8.

(** A continuation byte, [10xxxxxx]. *)
Definition is_cont (b : ascii) : bool := Char.between 128 191 b.

Definition code2 (b1 b2 : ascii) : N :=
  (Char.code b1 * 64 + Char.code b2 - (192 * 64 + 128))%N.

Definition code3 (b1 b2 b3 : ascii) : N :=
  (Char.code b1 * 4096 + Char.code b2 * 64 + Char.code b3
   - (224 * 4096 + 128 * 64 + 128))%N.

Definition code4 (b1 b2 b3 b4 : ascii) : N :=
  (Char.code b1 * 262144 + Char.code b2 * 4096 + Char.code b3 * 64
   + Char.code b4 - (240 * 262144 + 128 * 4096 + 128 * 64 + 128))%N.

(** The second byte of a three-byte sequence is in error: it is no
    continuation byte, or it gives an overlong form (after E0) or a
    surrogate (after ED). *)
Definition bad_second_of3 (b1 b2 : ascii) : bool :=
  if is_cont b2
  then if (Char.code b2 <? 160)%N then (Char.code b1 =? 224)%N
       else (Char.code b1 =? 237)%N
  else true.

(** The second byte of a four-byte sequence is in error: it is no
    continuation byte, or it gives an overlong form (after F0) or a code
    point beyond U+10FFFF (after F4). *)
Definition bad_second_of4 (b1 b2 : ascii) : bool :=
  if is_cont b2
  then if (Char.code b2 <? 144)%N then (Char.code b1 =? 240)%N
       else (Char.code b1 =? 244)%N
  else true.

Fixpoint decode (bs : string) : list N :=
  match bs with
  | EmptyString => []
  | String b1 r1 =>
      if (Char.code b1 <? 128)%N then Char.code b1 :: decode r1
      else if (Char.code b1 <? 194)%N then decode r1    (* invalid start byte *)
      else if (Char.code b1 <? 224)%N then
        match r1 with
        | EmptyString => []                         (* unexpected end of data *)
        | String b2 r2 =>
            if is_cont b2 then code2 b1 b2 :: decode r2 else decode r1
        end
      else if (Char.code b1 <? 240)%N then
        match r1 with
        | EmptyString => []
        | String b2 r2 =>
            if bad_second_of3 b1 b2 then decode r1
            else
              match r2 with
              | EmptyString => []
              | String b3 r3 =>
                  if is_cont b3 then code3 b1 b2 b3 :: decode r3 else decode r2
              end
        end
      else if (Char.code b1 <? 245)%N then
        match r1 with
        | EmptyString => []
        | String b2 r2 =>
            if bad_second_of4 b1 b2 then decode r1
            else
              match r2 with
              | EmptyString => []
              | String b3 r3 =>
                  if is_cont b3 then
                    match r3 with
                    | EmptyString => []
                    | String b4 r4 =>
                        if is_cont b4 then code4 b1 b2 b3 b4 :: decode r4
                        else decode r3
                    end
                  else decode r2
              end
        end
      else decode r1                                    (* invalid start byte *)
  end.

(** The character of a code point; the text holds the code points up to
    U+00FF, and a code point beyond them stands as U+00FF. *)
Definition char_of (cp : N) : ascii :=
  if (cp <=? 255)%N then ascii_of_N cp else ascii_of_N 255.

(** The text read from a file that holds the bytes [bs]. *)
Definition text (bs : string) : string :=
  string_of_list_ascii (char_of <$> decode bs).

(** [t.encode("utf-8")] for a text of the range. *)
Fixpoint encode (t : string) : string :=
  match t with
  | EmptyString => EmptyString
  | String c t' =>
      if (Char.code c <? 128)%N then String c (encode t')
      else String (ascii_of_N (192 + Char.code c / 64))
             (String (ascii_of_N (128 + Char.code c mod 64)) (encode t'))
  end.

(** The ASCII characters of a string, in order. *)
Fixpoint ascii_part (s : string) : string :=
  match s with
  | EmptyString => EmptyString
  | String c s' =>
      if (Char.code c <? 128)%N then String c (ascii_part s') else ascii_part s'
  end.

End Utf8.

(** ** Regular expressions

    The fragment of [re] syntax the catalog uses, and [re.search] with
    [re.IGNORECASE].  Only the existence of a match is observed, so
    greediness is immaterial. *)

Module Re.

Inductive regex : Type :=
  | Eps
  | Lit (c : ascii)                            (* one literal character *)
  | Cls (neg : bool) (ranges : list (ascii * ascii))   (* [...] and [^...] *)
  | Any                                        (* .  : all but newline *)
  | Space                                      (* \s *)
  | WordB                                      (* \b *)
  | Seq (r1 r2 : regex)
  | Alt (r1 r2 : regex)
  | Star (r : regex)                           (* r* *)
  | AtLeast (n : nat) (r : regex).             (* r{n,} *)

Definition Plus (r : regex) : regex := AtLeast 1 r.

(** A literal word. *)
Fixpoint lit (s : string) : regex :=
  match s with
  | EmptyString => Eps
  | String c EmptyString => Lit c
  | String c s' => Seq (Lit c) (lit s')
  end.

(** [(?:a|b|...)] *)
Fixpoint alts (l : list string) : regex :=
  match l with
  | [] => Cls false []
  | [s] => lit s
  | s :: l' => Alt (lit s) (alts l')
  end.

Fixpoint seqs (l : list regex) : regex :=
  match l with
  | [] => Eps
  | [r] => r
  | r :: l' => Seq r (seqs l')
  end.

Definition in_range (c : ascii) (rg : ascii * ascii) : bool :=
  Char.between (Char.code (fst rg)) (Char.code (snd rg)) c.

(** Membership in a character set under IGNORECASE: the character or its
    other case is in one of the ranges. *)
Definition in_class (ranges : list (ascii * ascii)) (c : ascii) : bool :=
  existsb (fun rg => in_range c rg || in_range (Char.lower c) rg
                     || (Char.between 97 122 c
                         && in_range (ascii_of_N (Char.code c - 32)) rg)) ranges.

Definition opt_isword (p : option ascii) : bool :=
  match p with Some c => Char.isword c | None => false end.

Definition head (s : string) : option ascii :=
  match s with String c _ => Some c | EmptyString => None end.

(** A continuation receives the character before the current position and
    the rest of the text. *)
Definition cont : Type := option ascii → string → bool.

(** Iteration of a matcher [mr]; an iteration that consumes nothing is cut,
    so [n = length s] rounds are enough at text [s]. *)
Fixpoint star_m (mr : option ascii → string → cont → bool) (n : nat)
    (prev : option ascii) (s : string) (k : cont) : bool :=
  if k prev s then true else
  match n with
  | O => false
  | S n' =>
      mr prev s (fun p s' =>
        if Nat.ltb (String.length s') (String.length s)
        then star_m mr n' p s' k else false)
  end.

Fixpoint rep_m (mr : option ascii → string → cont → bool) (n : nat)
    (rest : option ascii → string → cont → bool)
    (prev : option ascii) (s : string) (k : cont) : bool :=
  match n with
  | O => rest prev s k
  | S n' => mr prev s (fun p s' => rep_m mr n' rest p s' k)
  end.

(** [m r prev s k]: some match of [r] at the start of [s] (with [prev] the
    character before it) leaves a rest accepted by [k].  Conjunctions and
    disjunctions are written with [if] so that evaluation stops early. *)
Fixpoint m (r : regex) (prev : option ascii) (s : string) (k : cont) : bool :=
  match r with
  | Eps => k prev s
  | Lit c =>
      match s with
      | String a s' => if Char.eq_ci a c then k (Some a) s' else false
      | EmptyString => false
      end
  | Cls neg ranges =>
      match s with
      | String a s' =>
          if xorb neg (in_class ranges a) then k (Some a) s' else false
      | EmptyString => false
      end
  | Any =>
      match s with
      | String a s' => if Ascii.eqb a "010" then false else k (Some a) s'
      | EmptyString => false
      end
  | Space =>
      match s with
      | String a s' => if Char.isspace a then k (Some a) s' else false
      | EmptyString => false
      end
  | WordB =>
      if xorb (opt_isword prev) (opt_isword (head s)) then k prev s else false
  | Seq r1 r2 => m r1 prev s (fun p s' => m r2 p s' k)
  | Alt r1 r2 => if m r1 prev s k then true else m r2 prev s k
  | Star r1 => star_m (m r1) (String.length s) prev s k
  | AtLeast n r1 =>
      rep_m (m r1) n (fun p s' k' => star_m (m r1) (String.length s') p s' k')
            prev s k
  end.

(** A match starting at some position of the text. *)
Fixpoint search_from (r : regex) (prev : option ascii) (s : string) : bool :=
  if m r prev s (fun _ _ => true) then true else
  match s with
  | String a s' => search_from r (Some a) s'
  | EmptyString => false
  end.

(** [re.search(pattern, s, re.IGNORECASE) is not None] *)
Definition search (r : regex) (s : string) : bool := search_from r None s.

(** What [re] means by a match, declaratively: [matches r p s p' s'] when
    [r] matches a prefix of [s] whose rest is [s'], [p] being the character
    before [s] and [p'] the one before [s']. *)
Inductive matches : regex → option ascii → string → option ascii → string → Prop :=
  | M_Eps p s : matches Eps p s p s
  | M_Lit c a p s :
      Char.eq_ci a c = true → matches (Lit c) p (String a s) (Some a) s
  | M_Cls neg ranges a p s :
      xorb neg (in_class ranges a) = true →
      matches (Cls neg ranges) p (String a s) (Some a) s
  | M_Any a p s :
      Ascii.eqb a "010" = false → matches Any p (String a s) (Some a) s
  | M_Space a p s :
      Char.isspace a = true → matches Space p (String a s) (Some a) s
  | M_WordB p s :
      xorb (opt_isword p) (opt_isword (head s)) = true → matches WordB p s p s
  | M_Seq r1 r2 p s p1 s1 p2 s2 :
      matches r1 p s p1 s1 → matches r2 p1 s1 p2 s2 →
      matches (Seq r1 r2) p s p2 s2
  | M_Alt_l r1 r2 p s p' s' :
      matches r1 p s p' s' → matches (Alt r1 r2) p s p' s'
  | M_Alt_r r1 r2 p s p' s' :
      matches r2 p s p' s' → matches (Alt r1 r2) p s p' s'
  | M_Star_0 r p s : matches (Star r) p s p s
  | M_Star_S r p s p1 s1 p2 s2 :
      matches r p s p1 s1 → matches (Star r) p1 s1 p2 s2 →
      matches (Star r) p s p2 s2
  | M_AtLeast_0 r p s p' s' :
      matches (Star r) p s p' s' → matches (AtLeast 0 r) p s p' s'
  | M_AtLeast_S n r p s p1 s1 p2 s2 :
      matches r p s p1 s1 → matches (AtLeast n r) p1 s1 p2 s2 →
      matches (AtLeast (S n) r) p s p2 s2.

(** The character before the position that follows [pre], when the
    character before [pre] is [p]. *)
Fixpoint before (p : option ascii) (pre : string) : option ascii :=
  match pre with
  | EmptyString => p
  | String a pre' => before (Some a) pre'
  end.

(** A matcher [mr] finds only matches of [r]. *)
Definition sound (r : regex) (mr : option ascii → string → cont → bool) : Prop :=
  ∀ p s k, mr p s k = true → ∃ p' s', matches r p s p' s' ∧ k p' s' = true.

(** Two continuations that agree up to the case of ASCII letters. *)
Definition related (k k' : cont) : Prop :=
  ∀ p t, k p t = k' (Char.upper_ascii <$> p) (Str.upper_ascii t).

End Re.

(** ** Data model *)

Record Finding : Type := mkFinding {
  severity : string;   (* "critical", "high", "medium", "low" *)
  category : string;
  file : string;
  line : nat;
  message : string;
  snippet : string;
}.

Definition SOURCE_EXTENSIONS : gset string :=
  {[ ".ts"; ".tsx"; ".js"; ".jsx"; ".py"; ".go"; ".java"; ".rb" ]}.

Definition SKIP_DIRS : gset string :=
  {[ "node_modules"; ".git"; "dist"; "build"; "__pycache__"; ".agent";
     ".next"; "vendor" ]}.

Definition SEVERITY_RANK : gmap string nat :=
  {[ "critical" := 0; "high" := 1; "medium" := 2; "low" := 3 ]}.

(** [SEVERITY_RANK.get(s, 3)] *)
Definition rank (s : string) : nat := default 3 (SEVERITY_RANK !! s).

(** ** The signature catalog *)

Module Catalog.
Import Re.

Definition ws : regex := Star Space.                       (* \s*  *)
Definition quote : regex := Cls false [("034", "034"); ("'", "'")]%char.
Definition not_quote : regex := Cls true [("034", "034"); ("'", "'")]%char.
Definition any_quote : regex :=
  Cls false [("`", "`"); ("034", "034"); ("'", "'")]%char.
Definition base64 : regex :=
  Cls false [("A", "Z"); ("a", "z"); ("0", "9"); ("+", "+"); ("/", "/");
             ("=", "=")]%char.
Definition not_comma_bracket : regex := Cls true [(",", ","); ("]", "]")]%char.

Definition rule : Type := regex * string * string * string.

End Catalog.

(** Pattern definitions: (regex, severity, category, message).  Each entry
    is preceded by the pattern's source text, the double quote written as
    [\x22]. *)
Definition PATTERNS : list Catalog.rule :=
  let ws := Catalog.ws in
  let quote := Catalog.quote in
  let lit := Re.lit in
  let alts := Re.alts in
  let seqs := Re.seqs in
  [ (* (?:password|passwd|pwd)\s*=\s*[\x22\'][^\x22\']+[\x22\'] *)
    (seqs [alts ["password"; "passwd"; "pwd"]; ws; lit "="; ws; quote;
           Re.Plus Catalog.not_quote; quote],
     "critical", "Hardcoded Secret", "Hardcoded password detected");
    (* (?:api_key|apikey|api_secret)\s*=\s*[\x22\'][^\x22\']+[\x22\'] *)
    (seqs [alts ["api_key"; "apikey"; "api_secret"]; ws; lit "="; ws; quote;
           Re.Plus Catalog.not_quote; quote],
     "critical", "Hardcoded Secret", "Hardcoded API key detected");
    (* (?:secret|token|auth_token)\s*=\s*[\x22\'][A-Za-z0-9+/=]{16,}[\x22\'] *)
    (seqs [alts ["secret"; "token"; "auth_token"]; ws; lit "="; ws; quote;
           Re.AtLeast 16 Catalog.base64; quote],
     "critical", "Hardcoded Secret", "Hardcoded secret/token detected");
    (* (?:PRIVATE_KEY|private_key)\s*=\s*[\x22\'] *)
    (seqs [alts ["PRIVATE_KEY"; "private_key"]; ws; lit "="; ws; quote],
     "critical", "Hardcoded Secret", "Hardcoded private key detected");
    (* (?:query|execute|raw)\s*\(\s*[`\x22\'].*\$\{ *)
    (seqs [alts ["query"; "execute"; "raw"]; ws; lit "("; ws;
           Catalog.any_quote; Re.Star Re.Any; lit "${"],
     "high", "SQL Injection",
     "String interpolation in SQL query — use parameterized queries");
    (* (?:query|execute|raw)\s*\(\s*[\x22\'].*\+\s*(?:req|input|params|body) *)
    (seqs [alts ["query"; "execute"; "raw"]; ws; lit "("; ws; quote;
           Re.Star Re.Any; lit "+"; ws;
           alts ["req"; "input"; "params"; "body"]],
     "high", "SQL Injection", "String concatenation with user input in SQL");
    (* \.raw\s*\(\s*` *)
    (seqs [lit ".raw"; ws; lit "("; ws; lit "`"],
     "medium", "SQL Injection",
     "Raw query with template literal — verify inputs are sanitized");
    (* \.innerHTML\s*= *)
    (seqs [lit ".innerHTML"; ws; lit "="],
     "high", "XSS",
     "Direct innerHTML assignment — use textContent or a sanitizer");
    (* dangerouslySetInnerHTML *)
    (lit "dangerouslySetInnerHTML",
     "medium", "XSS",
     "dangerouslySetInnerHTML used — ensure input is sanitized");
    (* document\.write\s*\( *)
    (seqs [lit "document.write"; ws; lit "("],
     "high", "XSS", "document.write() is an XSS vector");
    (* \beval\s*\( *)
    (seqs [Re.WordB; lit "eval"; ws; lit "("],
     "high", "Code Injection",
     "eval() is a code injection vector — avoid entirely");
    (* new\s+Function\s*\( *)
    (seqs [lit "new"; Re.Plus Re.Space; lit "Function"; ws; lit "("],
     "high", "Code Injection", "new Function() is equivalent to eval()");
    (* child_process\.exec\s*\( *)
    (seqs [lit "child_process.exec"; ws; lit "("],
     "medium", "Command Injection",
     "exec() with unsanitized input is a command injection vector");
    (* subprocess\.call\s*\(\s*[^,\]]*\bshell\s*=\s*True *)
    (seqs [lit "subprocess.call"; ws; lit "("; ws;
           Re.Star Catalog.not_comma_bracket; Re.WordB; lit "shell"; ws;
           lit "="; ws; lit "True"],
     "high", "Command Injection",
     "subprocess with shell=True — use shell=False and pass args as list");
    (* createHash\s*\(\s*[\x22\']md5[\x22\'] *)
    (seqs [lit "createHash"; ws; lit "("; ws; quote; lit "md5"; quote],
     "medium", "Weak Crypto",
     "MD5 is cryptographically broken — use SHA-256+");
    (* createHash\s*\(\s*[\x22\']sha1[\x22\'] *)
    (seqs [lit "createHash"; ws; lit "("; ws; quote; lit "sha1"; quote],
     "medium", "Weak Crypto", "SHA-1 is deprecated — use SHA-256+");
    (* Math\.random\s*\( *)
    (seqs [lit "Math.random"; ws; lit "("],
     "low", "Weak Randomness",
     "Math.random() is not cryptographically secure — use crypto.randomBytes()");
    (* algorithms\s*:\s*\[\s*[\x22\']none[\x22\'] *)
    (seqs [lit "algorithms"; ws; lit ":"; ws; lit "["; ws; quote; lit "none";
           quote],
     "critical", "Auth Bypass", "JWT 'none' algorithm allows auth bypass");
    (* verify\s*:\s*false *)
    (seqs [lit "verify"; ws; lit ":"; ws; lit "false"],
     "high", "Auth Bypass", "SSL/TLS verification disabled");
    (* rejectUnauthorized\s*:\s*false *)
    (seqs [lit "rejectUnauthorized"; ws; lit ":"; ws; lit "false"],
     "high", "Auth Bypass", "TLS certificate validation disabled");
    (* console\.log\s*\(.*(?:password|secret|token|key) *)
    (seqs [lit "console.log"; ws; lit "("; Re.Star Re.Any;
           alts ["password"; "secret"; "token"; "key"]],
     "medium", "Info Disclosure", "Sensitive data logged to console");
    (* \.env(?:\.local|\.production) *)
    (seqs [lit ".env"; alts [".local"; ".production"]],
     "low", "Info Disclosure",
     "Env file reference — ensure not committed to git")
  ].


(** ** Paths and the file tree

    A path is its list of components; an absolute path is the list below
    the root directory. *)

Module Path.

Record t : Type := mk { is_abs : bool; comps : list string }.

(** [os.path.normpath] of an absolute path: empty and [.] components are
    dropped, [..] removes the component before it (none at the root). *)
Fixpoint normpath_from (stack p : list string) : list string :=
  match p with
  | [] => stack
  | c :: p' =>
      if String.eqb c "" || String.eqb c "." then normpath_from stack p'
      else if String.eqb c ".." then normpath_from (removelast stack) p'
      else normpath_from (stack ++ [c]) p'
  end.

Definition normpath (p : list string) : list string := normpath_from [] p.

(** [os.path.abspath(p)] in the working directory [cwd] *)
Definition abspath (cwd : list string) (p : t) : list string :=
  normpath (if is_abs p then comps p else cwd ++ comps p).

(** [os.path.join(root, p) if not os.path.isabs(p) else p] *)
Definition join_unless_abs (root : list string) (p : t) : list string :=
  if negb (is_abs p) then root ++ comps p else comps p.

Fixpoint rel_list (start path : list string) : list string :=
  match start, path with
  | s :: start', x :: path' =>
      if String.eqb s x then rel_list start' path'
      else ((λ _, "..") <$> start) ++ path
  | _, _ => ((λ _, "..") <$> start) ++ path
  end.

(** [os.path.relpath(path, start)], both absolute *)
Definition relpath (path start : list string) : string :=
  match rel_list (normpath start) (normpath path) with
  | [] => "."
  | l => String.concat "/" l
  end.

Fixpoint rfind (c : ascii) (s : string) : option nat :=
  match s with
  | EmptyString => None
  | String a s' =>
      match rfind c s' with
      | Some i => Some (S i)
      | None => if Ascii.eqb a c then Some 0 else None
      end
  end.

(** [Path(name).suffix] for a one-component [name]: from the last dot on,
    unless that dot is the first or the last character. *)
Definition suffix (name : string) : string :=
  match rfind "." name with
  | Some i =>
      if Nat.ltb 0 i && Nat.ltb i (String.length name - 1)
      then String.substring i (String.length name - i) name
      else ""
  | None => ""
  end.

End Path.

Module FS.

#[local] Set Warnings "-register-all".

Inductive node : Type :=
  | File (content : option string)   (* the bytes; [None]: opening it raises OSError *)
  | Dir (entries : list (string * node))      (* in the order scandir lists them *)
  | Locked (entries : list (string * node))   (* a directory that scandir cannot list *)
  | Link (target : list string).              (* a symbolic link *)

(** A directory that is no symbolic link. *)
Definition is_dir (n : node) : bool :=
  match n with Dir _ | Locked _ => true | File _ | Link _ => false end.

Fixpoint child (name : string) (es : list (string * node)) : option node :=
  match es with
  | [] => None
  | (x, n) :: es' => if String.eqb x name then Some n else child name es'
  end.

(** The node at a path made of entry names only, no link being followed. *)
Fixpoint node_at (n : node) (p : list string) : option node :=
  match p with
  | [] => Some n
  | c :: p' =>
      match n with
      | Dir es | Locked es => child c es ≫= (λ n', node_at n' p')
      | File _ | Link _ => None
      end
  end.

(** The entries of the directory reached from [n] through the names [rel],
    when every directory on the way, [n] included, can be listed and is no
    symbolic link. *)
Fixpoint dir_at (n : node) (rel : list string)
    : option (list (string * node)) :=
  match n with
  | Dir es =>
      match rel with
      | [] => Some es
      | c :: rel' => child c es ≫= (λ n', dir_at n' rel')
      end
  | _ => None
  end.

(** What a symbolic link stands for.  The target of a link is the place it
    leads to in the end, as the names from the root of the tree down to an
    entry that is no link; a link that leads nowhere has a target that
    names no such entry. *)
Definition follow (root n : node) : option node :=
  match n with
  | Link target => node_at root target
  | _ => Some n
  end.

(** [entry.is_dir()] for an entry that [os.scandir] lists: links are
    followed. *)
Definition entry_is_dir (root n : node) : bool :=
  match follow root n with
  | Some n' => is_dir n'
  | None => false
  end.

(** Resolution of a path by the system, from the directory at [stack]:
    every component is looked up in a directory; [.] and the empty
    component stay there, [..] goes up, a symbolic link leads to its
    target. *)
Fixpoint canon (root : node) (stack p : list string) : option (list string) :=
  match p with
  | [] => Some stack
  | c :: p' =>
      match node_at root stack with
      | Some (Dir es) | Some (Locked es) =>
          if String.eqb c "" || String.eqb c "." then canon root stack p'
          else if String.eqb c ".." then canon root (removelast stack) p'
          else match child c es with
               | Some (Link target) => canon root target p'
               | Some _ => canon root (stack ++ [c]) p'
               | None => None
               end
      | _ => None
      end
  end.

Definition lookup (root : node) (p : list string) : option node :=
  canon root [] p ≫= node_at root.

Definition isfile (root : node) (p : list string) : bool :=
  match lookup root p with Some (File _) => true | _ => false end.

Definition isdir (root : node) (p : list string) : bool :=
  match lookup root p with Some n => is_dir n | None => false end.

(** [f.readlines()] in text mode with universal newlines: the lines keep
    their terminator, which is always read as a line feed. *)
Fixpoint readlines (s : string) : list string :=
  match s with
  | EmptyString => []
  | String c s' =>
      if Ascii.eqb c "010" then String "010" EmptyString :: readlines s'
      else if Ascii.eqb c "013" then
        match s' with
        | String "010" s'' => String "010" EmptyString :: readlines s''
        | _ => String "010" EmptyString :: readlines s'
        end
      else
        match readlines s' with
        | [] => [String c EmptyString]
        | l :: ls => String c l :: ls
        end
  end.

(** [open(p, "r", encoding="utf-8", errors="ignore")] then [readlines()]:
    [None] when an [OSError] is raised. *)
Definition read (root : node) (p : list string) : option (list string) :=
  match lookup root p with
  | Some (File (Some bytes)) => Some (readlines (Utf8.text bytes))
  | _ => None
  end.

(** The names [os.walk] puts in [dirs] and in [files] for a directory with
    the entries [es]. *)
Definition dirnames (root : node) (es : list (string * node)) : list string :=
  (filter (λ e, entry_is_dir root e.2 = true) es).*1.

Definition filenames (root : node) (es : list (string * node)) : list string :=
  (filter (λ e, entry_is_dir root e.2 = false) es).*1.

End FS.

(** ** The process and its world

    The program runs against a world: the file tree, the working directory
    and the log of what it did (directories listed, files opened, lines
    printed).  A computation takes a world and returns a value and the world
    it leaves. *)

(** What [print] writes, one constructor per [print] call of the source
    (the three lines printed for one finding are one [OutFinding]). *)
Inductive out : Type :=
  | OutNoIssues (min_severity : string)
  | OutCategory (category : string)
  | OutFinding (f : Finding)
  | OutDirNotFound (project_root : list string)
  | OutBanner
  | OutProject (project_root : list string)
  | OutSeverityFilter (severity : string)
  | OutSummaryHeader
  | OutSeverityCount (sev : string) (c : nat)
  | OutPassed
  | OutAttention (critical_high : nat).

(** What the log records: a directory was listed (as [os.walk] does), [open]
    was called on a path (whether or not it succeeded), a line was
    printed. *)
Inductive event : Type :=
  | EvScandir (p : list string)
  | EvOpen (p : list string)
  | EvPrint (o : out).

Record world : Type := mkWorld {
  w_fs : FS.node;
  w_cwd : list string;
  w_log : list event;
}.

Definition M (A : Type) : Type := world → A * world.

Definition ret {A} (a : A) : M A := λ w, (a, w).

Definition bind {A B} (c : M A) (k : A → M B) : M B :=
  λ w, let (a, w') := c w in k a w'.

Notation "x <~ c ;; k" := (bind c (λ x, k))
  (at level 100, c at next level, right associativity).
Notation "c ;;; k" := (bind c (λ _, k))
  (at level 100, right associativity).

(** The world after the events [tr]. *)
Definition extend (w : world) (tr : list event) : world :=
  mkWorld (w_fs w) (w_cwd w) (w_log w ++ tr).

Definition emit (e : event) : M unit := λ w, (tt, extend w [e]).

Definition print (o : out) : M unit := emit (EvPrint o).

Definition getcwd : M (list string) := λ w, (w_cwd w, w).

Definition os_path_isfile (p : list string) : M bool :=
  λ w, (FS.isfile (w_fs w) p, w).

Definition os_path_isdir (p : list string) : M bool :=
  λ w, (FS.isdir (w_fs w) p, w).

Definition open_readlines (p : list string) : M (option (list string)) :=
  emit (EvOpen p) ;;; λ w, (FS.read (w_fs w) p, w).

(** [for x in l: acc.extend(body(x))] *)
Definition for_extend {A B} (body : A → M (list B)) : list A → M (list B) :=
  fix go (l : list A) : M (list B) :=
    match l with
    | [] => ret []
    | x :: l' => r <~ body x ;; rs <~ go l' ;; ret (r ++ rs)
    end.

(** [for x in l: body(x)] *)
Definition for_each {A} (body : A → M unit) : list A → M unit :=
  fix go (l : list A) : M unit :=
    match l with
    | [] => ret tt
    | x :: l' => body x ;;; go l'
    end.

(** [for root, dirs, files in os.walk(top): ...] top-down, with
    [onerror=None] and [followlinks=False].  The loop body receives the
    directory, its sub-directory names and its other entries; it returns
    what it collected and the names its in-place edit left in [dirs].  The
    walk then descends into those of them that are no symbolic links.  A
    [top] that cannot be listed yields nothing. *)
Fixpoint walk_node {B} (fs : FS.node)
    (body : list string → list string → list string → M (list B * list string))
    (top : list string) (n : FS.node) : M (list B) :=
  match n with
  | FS.Dir es =>
      emit (EvScandir top) ;;;
      r <~ body top (FS.dirnames fs es) (FS.filenames fs es) ;;
      rs <~ for_extend (λ e,
              let '(d, sub) := e in
              if FS.is_dir sub && bool_decide (d ∈ r.2)
              then walk_node fs body (top ++ [d]) sub else ret []) es ;;
      ret (r.1 ++ rs)
  | _ => ret []
  end.

Definition os_walk_for {B}
    (top : list string)
    (body : list string → list string → list string → M (list B * list string))
    : M (list B) :=
  λ w, match FS.lookup (w_fs w) top with
       | Some n => walk_node (w_fs w) body top n w
       | None => ([], w)
       end.

(** ** The scan engine *)

Definition mk_finding (rel_path : string) (line_num : nat) (stripped : string)
    (r : Catalog.rule) : Finding :=
  let '(_, severity, category, message) := r in
  mkFinding severity category rel_path line_num message
            (Str.slice_to 120 stripped).

Definition is_comment (stripped : string) : bool :=
  Str.startswith stripped "//" || Str.startswith stripped "#"
  || Str.startswith stripped "*".

(** The body of the loop over the lines, for one line. *)
Definition scan_line (rel_path : string) (line_num : nat) (line : string)
    : list Finding :=
  let stripped := Str.strip line in
  if is_comment stripped then []
  else
    omap (λ r : Catalog.rule,
            if Re.search r.1.1.1 stripped
            then Some (mk_finding rel_path line_num stripped r) else None)
         PATTERNS.

(** [for line_num, line in enumerate(lines, line_num): ...] *)
Fixpoint scan_lines (rel_path : string) (line_num : nat) (lines : list string)
    : list Finding :=
  match lines with
  | [] => []
  | line :: rest =>
      scan_line rel_path line_num line ++ scan_lines rel_path (S line_num) rest
  end.

Definition scan_file (filepath project_root : list string) : M (list Finding) :=
  let rel_path := Path.relpath filepath project_root in
  r <~ open_readlines filepath ;;
  match r with
  | None => ret []
  | Some lines => ret (scan_lines rel_path 1 lines)
  end.

(** Truth value of [target_files]: [None] and the empty list are false. *)
Definition truthy {A} (o : option (list A)) : bool :=
  match o with Some (_ :: _) => true | _ => false end.

(** The body of the loop over an explicit subset. *)
Definition scan_target (project_root : list string) (fpath : Path.t)
    : M (list Finding) :=
  let abs_path := Path.join_unless_abs project_root fpath in
  b <~ os_path_isfile abs_path ;;
  if b then scan_file abs_path project_root else ret [].

(** The body of the loop over [os.walk]: the value pairs the findings of
    the directory's files with the pruned [dirs]. *)
Definition walk_body (project_root : list string)
    (root dirs files : list string) : M (list Finding * list string) :=
  let dirs := filter (λ d, d ∉ SKIP_DIRS) dirs in
  fs <~ for_extend (λ filename,
          let ext := Path.suffix filename in
          if bool_decide (ext ∈ SOURCE_EXTENSIONS)
          then scan_file (root ++ [filename]) project_root
          else ret []) files ;;
  ret (fs, dirs).

Definition scan_directory (project_root : list string)
    (target_files : option (list Path.t)) : M (list Finding) :=
  if truthy target_files then
    for_extend (scan_target project_root) (default [] target_files)
  else
    os_walk_for project_root (walk_body project_root).

(** ** Reporting *)

(** [l.sort(key=key)]: a stable sort. *)
Fixpoint insert_by {A} (key : A → nat) (x : A) (l : list A) : list A :=
  match l with
  | [] => [x]
  | y :: l' => if key x <=? key y then x :: y :: l' else y :: insert_by key x l'
  end.

Fixpoint sort_by {A} (key : A → nat) (l : list A) : list A :=
  match l with
  | [] => []
  | x :: l' => insert_by key x (sort_by key l')
  end.

Definition finding_rank (f : Finding) : nat := rank (severity f).

Fixpoint print_loop (current_category : string) (l : list Finding) : M unit :=
  match l with
  | [] => ret tt
  | finding :: l' =>
      (if negb (String.eqb (category finding) current_category)
       then print (OutCategory (category finding)) else ret tt) ;;;
      print (OutFinding finding) ;;;
      print_loop (category finding) l'
  end.

Definition print_findings (findings : list Finding) (min_severity : string)
    : M nat :=
  let min_rank := rank min_severity in
  let filtered := filter (λ f, finding_rank f ≤ min_rank) findings in
  let filtered := sort_by finding_rank filtered in
  match filtered with
  | [] => print (OutNoIssues min_severity) ;;; ret 0
  | _ => print_loop "" filtered ;;; ret (length filtered)
  end.

(** ** The entry point, from the parsed arguments on *)

Record args : Type := mkArgs {
  a_path : Path.t;
  a_severity : string;
  a_files : option (list Path.t);
}.

(** [by_severity[f.severity] = by_severity.get(f.severity, 0) + 1] over the
    findings *)
Definition tally (findings : list Finding) : gmap string nat :=
  foldl (λ by_severity f,
           <[severity f := default 0 (by_severity !! severity f) + 1]>
             by_severity)
        ∅ findings.

Definition get0 (by_severity : gmap string nat) (sev : string) : nat :=
  default 0 (by_severity !! sev).

(** The summary that ends [main]; the value is the exit status. *)
Definition summary (findings : list Finding) (count : nat) : M nat :=
  print OutSummaryHeader ;;;
  let by_severity := tally findings in
  for_each (λ sev,
    let c := get0 by_severity sev in
    if 0 <? c then print (OutSeverityCount sev c) else ret tt)
    ["critical"; "high"; "medium"; "low"] ;;;
  (if count =? 0 then print OutPassed
   else
     let critical_high := get0 by_severity "critical" + get0 by_severity "high" in
     if 0 <? critical_high then print (OutAttention critical_high)
     else ret tt) ;;;
  ret (if 0 <? get0 by_severity "critical" then 1 else 0).

(** [main]; the value is the exit status. *)
Definition main (a : args) : M nat :=
  cwd <~ getcwd ;;
  let project_root := Path.abspath cwd (a_path a) in
  d <~ os_path_isdir project_root ;;
  if negb d then
    print (OutDirNotFound project_root) ;;; ret 1
  else
    print OutBanner ;;;
    print (OutProject project_root) ;;;
    print (OutSeverityFilter (a_severity a)) ;;;
    findings <~ scan_directory project_root (a_files a) ;;
    count <~ print_findings findings (a_severity a) ;;
    summary findings count.

(** ** What a run computes

    The program only reads the file tree and only appends to the log.  The
    definitions below give, from the file tree alone, the value a step
    returns and the events it appends; the lemmas of the next part show that
    the program computes exactly these. *)

(** The events a computation appends to the log of [w]. *)
Definition trace_of {A} (c : M A) (w : world) : list event :=
  drop (length (w_log w)) (w_log (c w).2).

Definition opened (tr : list event) : list (list string) :=
  omap (λ e, match e with EvOpen p => Some p | _ => None end) tr.

Definition listed (tr : list event) : list (list string) :=
  omap (λ e, match e with EvScandir p => Some p | _ => None end) tr.

Definition shown (tr : list event) : list Finding :=
  omap (λ e, match e with EvPrint (OutFinding f) => Some f | _ => None end) tr.

(** The findings [scan_file] returns for the file at [filepath]. *)
Definition file_findings (fs : FS.node) (project_root filepath : list string)
    : list Finding :=
  match FS.read fs filepath with
  | Some lines => scan_lines (Path.relpath filepath project_root) 1 lines
  | None => []
  end.

(** The paths of an explicit subset that are files, in the order given. *)
Definition subset_paths (fs : FS.node) (project_root : list string)
    (l : list Path.t) : list (list string) :=
  filter (λ p, FS.isfile fs p = true) (Path.join_unless_abs project_root <$> l).

(** The entries of the directory [top] that the walk hands to [scan_file]. *)
Definition dir_files (fs : FS.node) (top : list string)
    (es : list (string * FS.node)) : list (list string) :=
  (λ name, top ++ [name]) <$>
    filter (λ name, Path.suffix name ∈ SOURCE_EXTENSIONS) (FS.filenames fs es).

(** The events of the walk from [top]: the directory is listed, its files
    are opened, then each remaining sub-directory is walked in turn. *)
Fixpoint walk_events (fs : FS.node) (top : list string) (n : FS.node)
    : list event :=
  match n with
  | FS.Dir es =>
      EvScandir top :: (EvOpen <$> dir_files fs top es) ++
      (es ≫= λ e,
         let '(d, sub) := e in
         if FS.is_dir sub && bool_decide (d ∉ SKIP_DIRS)
         then walk_events fs (top ++ [d]) sub else [])
  | _ => []
  end.

Definition dir_events (fs : FS.node) (project_root : list string)
    (target_files : option (list Path.t)) : list event :=
  if truthy target_files then
    EvOpen <$> subset_paths fs project_root (default [] target_files)
  else
    match FS.lookup fs project_root with
    | Some n => walk_events fs project_root n
    | None => []
    end.

Definition dir_findings (fs : FS.node) (project_root : list string)
    (target_files : option (list Path.t)) : list Finding :=
  opened (dir_events fs project_root target_files)
    ≫= file_findings fs project_root.

(** File traversal order, read off the file tree alone.  In a walk: the
    files of a directory that have a source extension, in the order the
    directory lists them, then those of each of its sub-directories in
    turn, a sub-directory being left out when its name is excluded, when
    it is a symbolic link or when it cannot be listed. *)
Fixpoint walk_files (fs : FS.node) (top : list string) (n : FS.node)
    : list (list string) :=
  match n with
  | FS.Dir es =>
      dir_files fs top es ++
      (es ≫= λ e,
         let '(d, sub) := e in
         if FS.is_dir sub && bool_decide (d ∉ SKIP_DIRS)
         then walk_files fs (top ++ [d]) sub else [])
  | _ => []
  end.

(** With a subset that is not empty: the supplied paths that are files, in
    the order given.  Otherwise: the walk from the root. *)
Definition traversal (fs : FS.node) (project_root : list string)
    (target_files : option (list Path.t)) : list (list string) :=
  if truthy target_files then
    subset_paths fs project_root (default [] target_files)
  else
    match FS.lookup fs project_root with
    | Some n => walk_files fs project_root n
    | None => []
    end.

(** What [print_findings] displays. *)
Definition filtered (findings : list Finding) (min_severity : string)
    : list Finding :=
  sort_by finding_rank
    (filter (λ f, finding_rank f ≤ rank min_severity) findings).

Fixpoint loop_events (current_category : string) (l : list Finding)
    : list event :=
  match l with
  | [] => []
  | finding :: l' =>
      (if negb (String.eqb (category finding) current_category)
       then [EvPrint (OutCategory (category finding))] else []) ++
      EvPrint (OutFinding finding) :: loop_events (category finding) l'
  end.

Definition report_events (findings : list Finding) (min_severity : string)
    : list event :=
  match filtered findings min_severity with
  | [] => [EvPrint (OutNoIssues min_severity)]
  | l => loop_events "" l
  end.

Definition exit_status (findings : list Finding) : nat :=
  if 0 <? get0 (tally findings) "critical" then 1 else 0.

Definition summary_events (findings : list Finding) (count : nat)
    : list event :=
  let by_severity := tally findings in
  EvPrint OutSummaryHeader ::
  (["critical"; "high"; "medium"; "low"] ≫= λ sev,
     if 0 <? get0 by_severity sev
     then [EvPrint (OutSeverityCount sev (get0 by_severity sev))] else []) ++
  (if count =? 0 then [EvPrint OutPassed]
   else if 0 <? get0 by_severity "critical" + get0 by_severity "high"
        then [EvPrint (OutAttention
                         (get0 by_severity "critical" + get0 by_severity "high"))]
        else []).

Definition main_events (fs : FS.node) (cwd : list string) (a : args)
    : list event :=
  let project_root := Path.abspath cwd (a_path a) in
  if FS.isdir fs project_root then
    let findings := dir_findings fs project_root (a_files a) in
    [EvPrint OutBanner; EvPrint (OutProject project_root);
     EvPrint (OutSeverityFilter (a_severity a))] ++
    dir_events fs project_root (a_files a) ++
    report_events findings (a_severity a) ++
    summary_events findings (length (filtered findings (a_severity a)))
  else [EvPrint (OutDirNotFound project_root)].

Definition main_status (fs : FS.node) (cwd : list string) (a : args) : nat :=
  let project_root := Path.abspath cwd (a_path a) in
  if FS.isdir fs project_root
  then exit_status (dir_findings fs project_root (a_files a))
  else 1.

(** The rules whose pattern matches a stripped line, in catalog order. *)
Definition matching (stripped : string) : list Catalog.rule :=
  filter (λ r : Catalog.rule, Re.search r.1.1.1 stripped = true) PATTERNS.

(** Discovery order as the specification words it: the files in traversal
    order, the lines of a file in order and numbered from 1, the rules in
    catalog order; every rule that matches a line that is not a comment
    gives one finding. *)
Definition discovery_order (fs : FS.node) (project_root : list string)
    (files : list (list string)) : list Finding :=
  p ← files;
  let lines := default [] (FS.read fs p) in
  '(line_num, line) ← zip (seq 1 (length lines)) lines;
  r ← PATTERNS;
  if negb (is_comment (Str.strip line)) && Re.search r.1.1.1 (Str.strip line)
  then [mk_finding (Path.relpath p project_root) line_num (Str.strip line) r]
  else [].

(** What the walk from [top] may do: list a directory reached from [top]
    through names that are not excluded, or open a file with a source
    extension in such a directory. *)
Definition walk_event_ok (top : list string) (e : event) : Prop :=
  match e with
  | EvScandir p => ∃ rel, p = top ++ rel ∧ Forall (λ d, d ∉ SKIP_DIRS) rel
  | EvOpen p =>
      ∃ rel name, p = top ++ rel ++ [name]
                  ∧ Forall (λ d, d ∉ SKIP_DIRS) rel
                  ∧ Path.suffix name ∈ SOURCE_EXTENSIONS
  | EvPrint _ => False
  end.

(** ** Reading the log *)

(** The category headers printed, in order. *)
Definition headers (tr : list event) : list string :=
  omap (λ e, match e with EvPrint (OutCategory c) => Some c | _ => None end) tr.

(** Everything printed, in order. *)
Definition prints (tr : list event) : list out :=
  omap (λ e, match e with EvPrint o => Some o | _ => None end) tr.

(** The per-severity totals printed by the summary, in order. *)
Definition totals (tr : list event) : list (string * nat) :=
  omap (λ e, match e with
             | EvPrint (OutSeverityCount sev c) => Some (sev, c)
             | _ => None
             end) tr.

(** The number of findings of a severity. *)
Definition count_of (sev : string) (findings : list Finding) : nat :=
  length (filter (λ f, severity f = sev) findings).

(** A component that names an entry: not empty, not [.] and not [..]. *)
Definition plain (c : string) : Prop := c ≠ "" ∧ c ≠ "." ∧ c ≠ "..".

(** ** What a pattern needs *)

(** All the characters. *)
Definition all_chars : list ascii := ascii_of_nat <$> seq 0 256.

(** Every character that [accept] takes satisfies [P]. *)
Definition accepts_only (P accept : ascii → bool) : bool :=
  forallb (λ a, implb (accept a) (P a)) all_chars.

(** A check on the syntax of a pattern: when it holds, every match of the
    pattern takes up a character that satisfies [P]. *)
Fixpoint needs (P : ascii → bool) (r : Re.regex) : bool :=
  match r with
  | Re.Eps | Re.WordB | Re.Star _ => false
  | Re.Lit c => accepts_only P (λ a, Char.eq_ci a c)
  | Re.Cls neg ranges => accepts_only P (λ a, xorb neg (Re.in_class ranges a))
  | Re.Any => accepts_only P (λ a, negb (Ascii.eqb a "010"))
  | Re.Space => accepts_only P Char.isspace
  | Re.Seq r1 r2 => needs P r1 || needs P r2
  | Re.Alt r1 r2 => needs P r1 && needs P r2
  | Re.AtLeast n r1 => (0 <? n) && needs P r1
  end.

(** Some character of the string satisfies [P]. *)
Fixpoint has_char (P : ascii → bool) (s : string) : bool :=
  match s with
  | EmptyString => false
  | String c s' => P c || has_char P s'
  end.

Definition is_letter (c : ascii) : bool :=
  Char.between 65 90 c || Char.between 97 122 c.

Definition is_equals (c : ascii) : bool := Ascii.eqb c "=".

Definition is_quote (c : ascii) : bool := Ascii.eqb c "034" || Ascii.eqb c "'".

(** ** A sample project

    A small tree used to run the program on concrete inputs. *)

Module Sample.

Definition nl : string := String "010" EmptyString.

(** [password = "abc123"] *)
Definition pw_line : string := "password = " +:+ Str.dq +:+ "abc123" +:+ Str.dq.

Definition long_line : string :=
  "eval(" +:+ string_of_list_ascii (replicate 495 "a"%char).

Definition tree : FS.node :=
  FS.Dir [("home", FS.Dir [("proj", FS.Dir [
    ("a.py", FS.File (Some ("  " +:+ pw_line +:+ nl +:+
                            "// " +:+ pw_line +:+ nl +:+
                            "x = eval(y)" +:+ nl)));
    ("node_modules", FS.Dir [("lib.js", FS.File (Some "eval(x)"))]);
    ("notes.txt", FS.File (Some "password = 'zzz'"));
    ("src", FS.Dir [
       ("db.ts", FS.File (Some ("db.query(`select ${x}`)" +:+ nl +:+
                                "Math.random()")));
       ("build", FS.Dir [("gen.js", FS.File (Some "eval(x)"))])]);
    ("secret.py", FS.File None);
    ("z.rb", FS.File (Some "verify: false"))])])].

Definition root : list string := ["home"; "proj"].

Definition w0 : world := mkWorld tree root [].

Definition here : Path.t := Path.mk false ["."].

Definition args_low : args := mkArgs here "low" None.

Definition args_empty_subset : args := mkArgs here "low" (Some []).

Definition subset : list Path.t :=
  [Path.mk false ["notes.txt"]; Path.mk false ["nope.py"];
   Path.mk true ["home"; "proj"; "src"; "db.ts"]].

(** A password assignment with two bytes that are not UTF-8 in it: FF in
    the word, and C3 before the closing quote. *)
Definition raw_bytes : string :=
  "pass" +:+ String (ascii_of_N 255)
    ("word = 'x" +:+ String (ascii_of_N 195) "y'").

Definition raw_tree : FS.node := FS.Dir [("raw.py", FS.File (Some raw_bytes))].

End Sample.

(** * Properties *)

(** ** The program against what a run computes *)

#[local] Arguments extend : simpl never.

Lemma w_fs_extend w tr : w_fs (extend w tr) = w_fs w.
Proof. reflexivity. Qed.

Lemma w_cwd_extend w tr : w_cwd (extend w tr) = w_cwd w.
Proof. reflexivity. Qed.

Lemma extend_nil w : extend w [] = w.
Proof. destruct w; unfold extend; simpl. by rewrite app_nil_r. Qed.

Lemma extend_extend w t1 t2 : extend (extend w t1) t2 = extend w (t1 ++ t2).
Proof. unfold extend; simpl. by rewrite app_assoc. Qed.

Lemma trace_of_extend {A} (c : M A) w a tr :
  c w = (a, extend w tr) → trace_of c w = tr.
Proof.
  intros H. unfold trace_of. rewrite H. simpl. by rewrite drop_app_length.
Qed.

Lemma bind_extend {A B} (c : M A) (k : A → M B) w a t1 b t2 :
  c w = (a, extend w t1) →
  k a (extend w t1) = (b, extend w (t1 ++ t2)) →
  bind c k w = (b, extend w (t1 ++ t2)).
Proof. intros H1 H2. unfold bind. by rewrite H1. Qed.

Lemma emit_extend e w : emit e w = (tt, extend w [e]).
Proof. reflexivity. Qed.

Lemma for_extend_extend {A B} (body : A → M (list B))
    (f : A → list B) (g : A → list event) (l : list A) w :
  (∀ x tr, x ∈ l → body x (extend w tr) = (f x, extend w (tr ++ g x))) →
  ∀ tr, for_extend body l (extend w tr) = (l ≫= f, extend w (tr ++ (l ≫= g))).
Proof.
  induction l as [|x l IH]; intros Hbody tr; simpl.
  - by rewrite app_nil_r.
  - unfold bind. rewrite Hbody by left.
    rewrite IH by (intros; apply Hbody; by right).
    unfold ret. by rewrite <- app_assoc.
Qed.

Lemma scan_file_extend p root w :
  scan_file p root w = (file_findings (w_fs w) root p, extend w [EvOpen p]).
Proof.
  unfold scan_file, file_findings, open_readlines, bind, emit. simpl.
  by destruct (FS.read (w_fs w) p).
Qed.

Lemma node_ind' (P : FS.node → Prop) :
  (∀ c, P (FS.File c)) →
  (∀ es, Forall (λ e, P e.2) es → P (FS.Dir es)) →
  (∀ es, P (FS.Locked es)) →
  (∀ target, P (FS.Link target)) →
  ∀ n, P n.
Proof.
  intros HF HD HL HK. fix IH 1.
  intros [c|es|es|target]; [apply HF| |apply HL|apply HK]. apply HD.
  induction es as [|[d sub] es IHes]; constructor; [apply IH | apply IHes].
Qed.

Lemma opened_app t1 t2 : opened (t1 ++ t2) = opened t1 ++ opened t2.
Proof. apply omap_app. Qed.

Lemma opened_EvOpen l : opened (EvOpen <$> l) = l.
Proof. induction l; simpl; [done | by f_equal]. Qed.

Lemma opened_bind {A} (g : A → list event) l :
  opened (l ≫= g) = l ≫= (λ x, opened (g x)).
Proof.
  induction l as [|x l IH]; [done|]. by rewrite !bind_cons, opened_app, IH.
Qed.

Lemma bind_filter_map {A B C} (P : A → Prop) `{∀ x, Decision (P x)}
    (h : A → B) (k : B → list C) (l : list A) :
  l ≫= (λ x, if bool_decide (P x) then k (h x) else []) = (h <$> filter P l) ≫= k.
Proof.
  induction l as [|x l IH]; [done|].
  rewrite filter_cons, bind_cons, IH.
  case_bool_decide; case_decide; try done.
Qed.

Lemma scan_target_extend root fpath w :
  let p := Path.join_unless_abs root fpath in
  scan_target root fpath w =
    (if FS.isfile (w_fs w) p then file_findings (w_fs w) root p else [],
     extend w (if FS.isfile (w_fs w) p then [EvOpen p] else [])).
Proof.
  simpl. unfold scan_target, bind, os_path_isfile.
  destruct (FS.isfile _ _); [apply scan_file_extend|].
  unfold ret. by rewrite extend_nil.
Qed.

Lemma walk_body_extend project_root root dirs files w :
  let ps := (λ name, root ++ [name]) <$>
              filter (λ name, Path.suffix name ∈ SOURCE_EXTENSIONS) files in
  walk_body project_root root dirs files w =
    ((ps ≫= file_findings (w_fs w) project_root,
      filter (λ d, d ∉ SKIP_DIRS) dirs),
     extend w (EvOpen <$> ps)).
Proof.
  simpl. unfold walk_body, bind.
  rewrite <- (extend_nil w) at 1.
  erewrite (for_extend_extend _
    (λ name, if bool_decide (Path.suffix name ∈ SOURCE_EXTENSIONS)
             then file_findings (w_fs w) project_root (root ++ [name]) else [])
    (λ name, if bool_decide (Path.suffix name ∈ SOURCE_EXTENSIONS)
             then [EvOpen (root ++ [name])] else [])).
  - unfold ret. simpl.
    rewrite (bind_filter_map _ (λ name, root ++ [name])
               (file_findings (w_fs w) project_root)).
    rewrite (bind_filter_map _ (λ name, root ++ [name]) (λ p, [EvOpen p])).
    do 2 f_equal.
  - intros name tr _. case_bool_decide.
    + rewrite scan_file_extend. by rewrite extend_extend.
    + unfold ret. by rewrite app_nil_r.
Qed.

Lemma list_bind_bind {A B C} (g : A → list B) (k : B → list C) (l : list A) :
  (l ≫= g) ≫= k = l ≫= (λ x, g x ≫= k).
Proof.
  induction l as [|x l IH]; [done|]. by rewrite !bind_cons, bind_app, IH.
Qed.

Lemma is_dir_entry fs n : FS.is_dir n = true → FS.entry_is_dir fs n = true.
Proof. by destruct n. Qed.

Lemma elem_of_dirnames fs d sub es :
  (d, sub) ∈ es → FS.is_dir sub = true → d ∈ FS.dirnames fs es.
Proof.
  intros Hin Hdir. unfold FS.dirnames. apply list_elem_of_fmap.
  exists (d, sub). split; [done|]. apply list_elem_of_filter.
  split; [|done]. by apply is_dir_entry.
Qed.

Lemma walk_node_extend fs project_root n :
  ∀ top w tr,
    walk_node fs (walk_body project_root) top n (extend w tr) =
      (opened (walk_events fs top n) ≫= file_findings (w_fs w) project_root,
       extend w (tr ++ walk_events fs top n)).
Proof.
  induction n as [c|es IH|es|target] using node_ind'; intros top w tr;
    try (simpl; unfold ret; by rewrite app_nil_r).
  - cbn [walk_node walk_events]. unfold bind at 1. rewrite emit_extend.
    unfold bind at 1. rewrite walk_body_extend. cbn [fst snd].
    rewrite !extend_extend. unfold bind at 1.
    rewrite (for_extend_extend _
      (λ e : string * FS.node,
         let '(d, sub) := e in
         if FS.is_dir sub && bool_decide (d ∉ SKIP_DIRS)
         then opened (walk_events fs (top ++ [d]) sub)
                ≫= file_findings (w_fs w) project_root
         else [])
      (λ e : string * FS.node,
         let '(d, sub) := e in
         if FS.is_dir sub && bool_decide (d ∉ SKIP_DIRS)
         then walk_events fs (top ++ [d]) sub else [])).
    + unfold ret. f_equal.
      * change (EvScandir top :: ?l) with ([EvScandir top] ++ l).
        rewrite !opened_app, opened_EvOpen, opened_bind. simpl opened at 1.
        rewrite app_nil_l, bind_app. f_equal.
        rewrite list_bind_bind. apply list_bind_ext; [|done].
        intros [d sub]. by destruct (_ && _).
      * f_equal. by rewrite <- !app_assoc.
    + intros [d sub] tr' Hin.
      destruct (FS.is_dir sub) eqn:Hdir; simpl.
      * rewrite Forall_forall in IH. specialize (IH _ Hin). simpl in IH.
        case_bool_decide as Hk; case_bool_decide as Hs; simpl.
        -- apply IH.
        -- exfalso. apply list_elem_of_filter in Hk. tauto.
        -- exfalso. apply Hk, list_elem_of_filter. split; [done|].
           by eapply elem_of_dirnames.
        -- unfold ret. by rewrite app_nil_r.
      * unfold ret. by rewrite app_nil_r.
Qed.

Lemma scan_directory_extend project_root target_files w :
  scan_directory project_root target_files w =
    (dir_findings (w_fs w) project_root target_files,
     extend w (dir_events (w_fs w) project_root target_files)).
Proof.
  unfold scan_directory, dir_findings, dir_events.
  destruct (truthy target_files).
  - rewrite <- (extend_nil w) at 1.
    rewrite (for_extend_extend _
      (λ fpath, let p := Path.join_unless_abs project_root fpath in
                if FS.isfile (w_fs w) p
                then file_findings (w_fs w) project_root p else [])
      (λ fpath, let p := Path.join_unless_abs project_root fpath in
                if FS.isfile (w_fs w) p then [EvOpen p] else [])).
    + rewrite app_nil_l, opened_EvOpen. unfold subset_paths.
      generalize (default [] target_files). intros l. f_equal.
      * induction l as [|x l IH]; [done|].
        rewrite fmap_cons, filter_cons, bind_cons, IH. simpl.
        destruct (FS.isfile _ _); [|done].
        rewrite decide_True by done. by rewrite bind_cons.
      * f_equal. induction l as [|x l IH]; [done|].
        rewrite fmap_cons, filter_cons, bind_cons, IH. simpl.
        destruct (FS.isfile _ _); [|done].
        by rewrite decide_True by done.
    + intros fpath tr _. rewrite scan_target_extend. simpl.
      by rewrite extend_extend.
  - unfold os_walk_for. destruct (FS.lookup (w_fs w) project_root) as [n|].
    + pose proof (walk_node_extend (w_fs w) project_root n project_root w [])
        as H.
      rewrite extend_nil in H. by rewrite H, app_nil_l.
    + by rewrite extend_nil.
Qed.

Lemma print_loop_extend l : ∀ cur w,
  print_loop cur l w = (tt, extend w (loop_events cur l)).
Proof.
  induction l as [|f l IH]; intros cur w; simpl.
  - unfold ret. by rewrite extend_nil.
  - unfold bind, print, ret.
    destruct (negb _); rewrite !emit_extend, IH, !extend_extend; done.
Qed.

Lemma print_findings_extend findings min_severity w :
  print_findings findings min_severity w =
    (length (filtered findings min_severity),
     extend w (report_events findings min_severity)).
Proof.
  unfold print_findings, report_events.
  fold (filtered findings min_severity).
  destruct (filtered findings min_severity) as [|f l] eqn:E; [done|].
  unfold bind. by rewrite print_loop_extend.
Qed.

Lemma for_each_extend {A} (body : A → M unit) (g : A → list event) l w :
  (∀ x tr, body x (extend w tr) = (tt, extend w (tr ++ g x))) →
  ∀ tr, for_each body l (extend w tr) = (tt, extend w (tr ++ (l ≫= g))).
Proof.
  intros Hbody. induction l as [|x l IH]; intros tr; simpl.
  - unfold ret. by rewrite app_nil_r.
  - unfold bind. rewrite Hbody, IH. by rewrite <- app_assoc.
Qed.

Lemma print_if_extend (b : bool) o w :
  (if b then print o else ret tt) w =
    (tt, extend w (if b then [EvPrint o] else [])).
Proof. destruct b; [done|]. unfold ret. by rewrite extend_nil. Qed.

Lemma summary_extend findings count w :
  summary findings count w =
    (exit_status findings, extend w (summary_events findings count)).
Proof.
  unfold summary, exit_status, summary_events.
  set (t := tally findings).
  unfold bind at 1. unfold print at 1. rewrite emit_extend.
  unfold bind at 1.
  rewrite (for_each_extend _
    (λ sev, if 0 <? get0 t sev
            then [EvPrint (OutSeverityCount sev (get0 t sev))] else [])).
  2:{ intros sev tr. rewrite print_if_extend. by rewrite extend_extend. }
  unfold bind, ret.
  destruct (count =? 0).
  - unfold print. rewrite emit_extend, extend_extend. do 2 f_equal.
  - rewrite print_if_extend, extend_extend. do 2 f_equal.
Qed.

Lemma main_extend a w :
  main a w = (main_status (w_fs w) (w_cwd w) a,
              extend w (main_events (w_fs w) (w_cwd w) a)).
Proof.
  unfold main, main_status, main_events, bind, getcwd, os_path_isdir, print.
  destruct (FS.isdir _ _); cbn [negb]; [|done].
  rewrite !emit_extend, !extend_extend.
  rewrite scan_directory_extend, print_findings_extend, summary_extend.
  rewrite !extend_extend, !w_fs_extend. do 2 f_equal.
Qed.

(** The events of a step, as the program appends them. *)
Lemma trace_of_scan_directory project_root target_files w :
  trace_of (scan_directory project_root target_files) w =
    dir_events (w_fs w) project_root target_files.
Proof. eapply trace_of_extend, scan_directory_extend. Qed.

Lemma trace_of_print_findings findings min_severity w :
  trace_of (print_findings findings min_severity) w =
    report_events findings min_severity.
Proof. eapply trace_of_extend, print_findings_extend. Qed.

Lemma trace_of_main a w :
  trace_of (main a) w = main_events (w_fs w) (w_cwd w) a.
Proof. eapply trace_of_extend, main_extend. Qed.

(** ** The verdict *)

Lemma get0_tally_from (l : list Finding) sev : ∀ m : gmap string nat,
  get0 (foldl (λ by_severity f,
                 <[severity f := default 0 (by_severity !! severity f) + 1]>
                   by_severity) m l) sev
  = get0 m sev + length (filter (λ f, severity f = sev) l).
Proof.
  induction l as [|f l IH]; intros m; simpl.
  - lia.
  - rewrite IH, filter_cons. unfold get0.
    destruct (decide (severity f = sev)) as [->|Hne].
    + rewrite lookup_insert_eq. simpl. lia.
    + by rewrite lookup_insert_ne.
Qed.

Lemma get0_tally findings sev :
  get0 (tally findings) sev = length (filter (λ f, severity f = sev) findings).
Proof. unfold tally. by rewrite get0_tally_from. Qed.

Lemma exit_status_critical findings :
  exit_status findings ≠ 0 ↔ ∃ f, f ∈ findings ∧ severity f = "critical".
Proof.
  unfold exit_status. rewrite get0_tally.
  destruct (filter (λ f, severity f = "critical") findings) as [|f l] eqn:E;
    simpl.
  - split; [done|]. intros (f & Hin & Hsev).
    assert (f ∈ filter (λ f, severity f = "critical") findings)
      by by apply list_elem_of_filter.
    rewrite E in *. by apply not_elem_of_nil in H.
  - split; [|done]. intros _. exists f.
    assert (Hf : f ∈ filter (λ f, severity f = "critical") findings)
      by (rewrite E; left).
    apply list_elem_of_filter in Hf. tauto.
Qed.

Lemma main_status_floor fs cwd p s1 s2 files :
  main_status fs cwd (mkArgs p s1 files) = main_status fs cwd (mkArgs p s2 files).
Proof. reflexivity. Qed.

(** C1: for an invocation that reaches the scan (its root is a directory;
    the other case is the fatal error of C7), the exit status is nonzero
    exactly when the full, unfiltered finding list holds a finding of
    severity critical; and whatever display floor the caller chooses, the
    exit status is the same. *)
Theorem exit_status_iff_critical (a : args) (w : world) :
  let project_root := Path.abspath (w_cwd w) (a_path a) in
  FS.isdir (w_fs w) project_root = true →
  ((main a w).1 ≠ 0 ↔
     ∃ f, f ∈ (scan_directory project_root (a_files a) w).1
          ∧ severity f = "critical")
  ∧ ∀ floor, (main (mkArgs (a_path a) floor (a_files a)) w).1 = (main a w).1.
Proof.
  intros project_root Hdir. split.
  - rewrite main_extend, scan_directory_extend. simpl.
    unfold main_status. fold project_root. rewrite Hdir.
    apply exit_status_critical.
  - intros floor. rewrite !main_extend. simpl. by destruct a.
Qed.

Lemma exit_status_iff_critical_witness :
  FS.isdir (w_fs Sample.w0)
    (Path.abspath (w_cwd Sample.w0) (a_path Sample.args_low)) = true
  ∧ (main Sample.args_low Sample.w0).1 ≠ 0
  ∧ (main (mkArgs Sample.here "critical" None) Sample.w0).1
    = (main Sample.args_low Sample.w0).1.
Proof.
  split; [reflexivity|].
  destruct (exit_status_iff_critical Sample.args_low Sample.w0) as [H1 H2];
    [reflexivity|].
  split; [|apply (H2 "critical")].
  apply H1.
  exists (mkFinding "critical" "Hardcoded Secret" "a.py" 1
            "Hardcoded password detected" Sample.pw_line).
  split; [vm_compute; left | reflexivity].
Defined.

(** ** The report *)

Lemma insert_by_Permutation {A} (key : A → nat) x l :
  insert_by key x l ≡ₚ x :: l.
Proof.
  induction l as [|y l IH]; simpl; [done|].
  destruct (key x <=? key y); [done|]. rewrite IH. apply Permutation_swap.
Qed.

Lemma sort_by_Permutation {A} (key : A → nat) l : sort_by key l ≡ₚ l.
Proof.
  induction l as [|x l IH]; simpl; [done|].
  by rewrite insert_by_Permutation, IH.
Qed.

(** [sort_by] is the stable sort: its result is in key order and elements
    of equal key keep their order. *)
Lemma insert_by_stable {A} (key : A → nat) (k : nat) x l :
  filter (λ y, key y = k) (insert_by key x l)
  = filter (λ y, key y = k) (x :: l).
Proof.
  induction l as [|y l IH]; simpl; [done|].
  destruct (key x <=? key y) eqn:E; [done|].
  apply Nat.leb_gt in E. rewrite filter_cons, IH, !filter_cons.
  destruct (decide (key y = k)), (decide (key x = k)); try done. lia.
Qed.

Lemma sort_by_stable {A} (key : A → nat) (k : nat) l :
  filter (λ y, key y = k) (sort_by key l) = filter (λ y, key y = k) l.
Proof.
  induction l as [|x l IH]; simpl; [done|].
  by rewrite insert_by_stable, !filter_cons, IH.
Qed.

Lemma insert_by_sorted {A} (key : A → nat) x l :
  StronglySorted (λ a b, key a ≤ key b) l →
  StronglySorted (λ a b, key a ≤ key b) (insert_by key x l).
Proof.
  induction 1 as [|y l Hs IH Hy]; simpl; [repeat constructor|].
  destruct (key x <=? key y) eqn:E.
  - apply Nat.leb_le in E. constructor; [by constructor|].
    constructor; [done|]. eapply Forall_impl; [exact Hy|]. simpl. lia.
  - apply Nat.leb_gt in E. constructor; [done|].
    rewrite insert_by_Permutation. constructor; [lia | done].
Qed.

Lemma sort_by_sorted {A} (key : A → nat) l :
  StronglySorted (λ a b, key a ≤ key b) (sort_by key l).
Proof.
  induction l as [|x l IH]; simpl; [constructor | by apply insert_by_sorted].
Qed.

Lemma shown_app t1 t2 : shown (t1 ++ t2) = shown t1 ++ shown t2.
Proof. apply omap_app. Qed.

Lemma shown_loop_events l : ∀ cur, shown (loop_events cur l) = l.
Proof.
  induction l as [|f l IH]; intros cur; simpl; [done|].
  rewrite shown_app. destruct (negb _); simpl; by rewrite IH.
Qed.

Lemma shown_report_events findings min_severity :
  shown (report_events findings min_severity) = filtered findings min_severity.
Proof.
  unfold report_events.
  destruct (filtered findings min_severity) as [|f l]; [done|].
  apply shown_loop_events.
Qed.

Lemma elem_of_filtered f findings min_severity :
  f ∈ filtered findings min_severity ↔
  f ∈ findings ∧ rank (severity f) ≤ rank min_severity.
Proof.
  unfold filtered. rewrite sort_by_Permutation, list_elem_of_filter.
  unfold finding_rank. tauto.
Qed.

Lemma filtered_submseteq findings s1 s2 :
  rank s1 ≤ rank s2 → filtered findings s1 ⊆+ filtered findings s2.
Proof.
  intros Hle. unfold filtered. rewrite !sort_by_Permutation.
  apply sublist_submseteq.
  induction findings as [|f l IH]; [done|]. rewrite !filter_cons.
  destruct (decide (finding_rank f ≤ rank s1)) as [H1|H1].
  - rewrite decide_True by lia. by apply sublist_skip.
  - destruct (decide (finding_rank f ≤ rank s2)); [by apply sublist_cons|done].
Qed.

(** C2: when floor [S1] is at least as strict as floor [S2], every finding
    displayed at [S1] is displayed at [S2] (with its multiplicity), for every
    finding list; and the exit status of a run is the same under both. *)
Theorem display_monotone_verdict_fixed
    (findings : list Finding) (S1 S2 : string) (p : Path.t)
    (files : option (list Path.t)) (w : world) :
  rank S1 ≤ rank S2 →
  shown (trace_of (print_findings findings S1) w)
    ⊆+ shown (trace_of (print_findings findings S2) w)
  ∧ (∀ f, f ∈ shown (trace_of (print_findings findings S1) w) →
          f ∈ shown (trace_of (print_findings findings S2) w))
  ∧ shown (trace_of (main (mkArgs p S1 files)) w)
      ⊆+ shown (trace_of (main (mkArgs p S2 files)) w)
  ∧ (main (mkArgs p S1 files) w).1 = (main (mkArgs p S2 files) w).1.
Proof.
  intros Hle. rewrite !trace_of_print_findings, !shown_report_events.
  pose proof (filtered_submseteq findings S1 S2 Hle) as Hsub.
  split; [done|]. split.
  { intros f Hf. by eapply elem_of_submseteq. }
  split.
  - rewrite !trace_of_main. unfold main_events.
    cbn [a_path a_severity a_files].
    destruct (FS.isdir _ _); [|done].
    rewrite !shown_app, !shown_report_events.
    apply submseteq_app; [done|]. apply submseteq_app; [done|].
    apply submseteq_app; [by apply filtered_submseteq|].
    set (fs := dir_findings _ _ _).
    assert (Hs : ∀ c, shown (summary_events fs c) = []).
    { intros c. unfold summary_events.
      change (EvPrint OutSummaryHeader :: ?l)
        with ([EvPrint OutSummaryHeader] ++ l).
      rewrite !shown_app. simpl. rewrite !shown_app.
      repeat (destruct (0 <? _)); destruct (c =? 0); done. }
    by rewrite !Hs.
  - by rewrite !main_extend.
Qed.

Lemma display_monotone_verdict_fixed_witness :
  rank "critical" ≤ rank "low"
  ∧ shown (trace_of (main (mkArgs Sample.here "critical" None)) Sample.w0)
      ⊆+ shown (trace_of (main (mkArgs Sample.here "low" None)) Sample.w0)
  ∧ (main (mkArgs Sample.here "critical" None) Sample.w0).1
    = (main (mkArgs Sample.here "low" None) Sample.w0).1.
Proof.
  assert (H : rank "critical" ≤ rank "low") by (vm_compute; lia).
  split; [exact H|].
  apply (display_monotone_verdict_fixed [] "critical" "low" Sample.here None
           Sample.w0 H).
Defined.

(** ** The matcher

    The matcher decides the declarative meaning of a pattern (the bound on
    the iterations of a star loses no match), and it does not depend on the
    case of the ASCII letters of the text. *)

Section matcher.
Import Re.

Lemma star_m_sound r mr : sound r mr → ∀ n, sound (Star r) (star_m mr n).
Proof.
  intros Hmr. induction n as [|n IH]; intros p s k; simpl.
  - destruct (k p s) eqn:Hk; [|done]. intros _. exists p, s. split; [constructor|done].
  - destruct (k p s) eqn:Hk.
    + intros _. exists p, s. split; [constructor|done].
    + intros (p1 & s1 & H1 & Hc)%Hmr.
      destruct (_ <? _); [|done].
      apply IH in Hc as (p2 & s2 & H2 & Hk2). exists p2, s2.
      split; [by econstructor|done].
Qed.

Lemma m_sound r : sound r (m r).
Proof.
  induction r as [|c|neg ranges| | | |r1 IH1 r2 IH2|r1 IH1 r2 IH2|r IH|n r IH];
    intros p s k; simpl.
  - intros H. exists p, s. split; [constructor|done].
  - destruct s as [|a s]; [done|]. destruct (Char.eq_ci a c) eqn:E; [|done].
    intros H. exists (Some a), s. split; [by constructor|done].
  - destruct s as [|a s]; [done|]. destruct (xorb _ _) eqn:E; [|done].
    intros H. exists (Some a), s. split; [by constructor|done].
  - destruct s as [|a s]; [done|]. destruct (Ascii.eqb a _) eqn:E; [done|].
    intros H. exists (Some a), s. split; [by constructor|done].
  - destruct s as [|a s]; [done|]. destruct (Char.isspace a) eqn:E; [|done].
    intros H. exists (Some a), s. split; [by constructor|done].
  - destruct (xorb _ _) eqn:E; [|done].
    intros H. exists p, s. split; [by constructor|done].
  - intros (p1 & s1 & H1 & (p2 & s2 & H2 & Hk)%IH2)%IH1.
    exists p2, s2. split; [by econstructor|done].
  - destruct (m r1 p s k) eqn:E.
    + intros _. apply IH1 in E as (p' & s' & H & Hk). exists p', s'.
      split; [by apply M_Alt_l|done].
    + intros (p' & s' & H & Hk)%IH2. exists p', s'.
      split; [by apply M_Alt_r|done].
  - by apply star_m_sound.
  - revert p s k. induction n as [|n IHn]; intros p s k; simpl.
    + intros (p' & s' & H & Hk)%(star_m_sound r _ IH). exists p', s'.
      split; [by constructor|done].
    + intros (p1 & s1 & H1 & (p2 & s2 & H2 & Hk)%IHn)%IH.
      exists p2, s2. split; [by econstructor|done].
Qed.

Lemma matches_length r p s p' s' :
  matches r p s p' s' →
  String.length s' ≤ String.length s
  ∧ (String.length s' = String.length s → p' = p ∧ s' = s).
Proof.
  induction 1; simpl in *; try (split; [lia | intros; lia || done]).
  - destruct IHmatches1 as [L1 E1], IHmatches2 as [L2 E2]. split; [lia|].
    intros E. destruct E2 as [-> ->]; [lia|]. apply E1. lia.
  - done.
  - done.
  - destruct IHmatches1 as [L1 E1], IHmatches2 as [L2 E2]. split; [lia|].
    intros E. destruct E2 as [-> ->]; [lia|]. apply E1. lia.
  - done.
  - destruct IHmatches1 as [L1 E1], IHmatches2 as [L2 E2]. split; [lia|].
    intros E. destruct E2 as [-> ->]; [lia|]. apply E1. lia.
Qed.

Lemma m_complete r p s p' s' :
  matches r p s p' s' →
  ∀ k, k p' s' = true →
    m r p s k = true
    ∧ ∀ r0 n, r = Star r0 → String.length s ≤ n → star_m (m r0) n p s k = true.
Proof.
  induction 1 as [p s|c a p s E|neg ranges a p s E|a p s E|a p s E|p s E
                 |r1 r2 p s p1 s1 p2 s2 H1 IH1 H2 IH2
                 |r1 r2 p s p' s' H IH|r1 r2 p s p' s' H IH
                 |r p s|r p s p1 s1 p2 s2 H1 IH1 H2 IH2
                 |r p s p' s' H IH|n r p s p1 s1 p2 s2 H1 IH1 H2 IH2];
    intros k Hk; (split; [|try by intros ? ? [=]]); simpl.
  - done.
  - by rewrite E.
  - by rewrite E.
  - by rewrite E.
  - by rewrite E.
  - by rewrite E.
  - apply IH1. exact (proj1 (IH2 k Hk)).
  - by rewrite (proj1 (IH k Hk)).
  - rewrite (proj1 (IH k Hk)). by destruct (m r1 p s k).
  - destruct (String.length s); simpl; by rewrite Hk.
  - intros r0 n [= <-] _. destruct n; simpl; by rewrite Hk.
  - assert (G : ∀ n, String.length s ≤ n → star_m (m r) n p s k = true);
      [|by apply G].
    intros n Hn. destruct (matches_length _ _ _ _ _ H1) as [L1 E1].
    destruct (decide (String.length s1 = String.length s)) as [Heq|Hne].
    + destruct (E1 Heq) as [-> ->]. by apply (IH2 k Hk).
    + destruct n as [|n]; [lia|]. simpl. destruct (k p s); [done|].
      apply IH1. rewrite (proj2 (Nat.ltb_lt _ _)) by lia.
      apply (IH2 k Hk); [done | lia].
  - intros r0 n [= <-] Hn.
    destruct (matches_length _ _ _ _ _ H1) as [L1 E1].
    destruct (decide (String.length s1 = String.length s)) as [Heq|Hne].
    + destruct (E1 Heq) as [-> ->]. by apply (IH2 k Hk).
    + destruct n as [|n]; [lia|]. simpl. destruct (k p s); [done|].
      apply IH1. rewrite (proj2 (Nat.ltb_lt _ _)) by lia.
      apply (IH2 k Hk); [done | lia].
  - exact (proj1 (IH k Hk)).
  - apply IH1. exact (proj1 (IH2 k Hk)).
Qed.

Lemma m_iff r p s k :
  m r p s k = true ↔ ∃ p' s', matches r p s p' s' ∧ k p' s' = true.
Proof.
  split; [apply m_sound|]. intros (p' & s' & H & Hk).
  by apply (m_complete _ _ _ _ _ H).
Qed.

Lemma search_from_iff r s : ∀ p,
  search_from r p s = true ↔
  ∃ pre rest p' s', s = pre +:+ rest ∧ matches r (before p pre) rest p' s'.
Proof.
  induction s as [|a s IH]; intros p; cbn [search_from].
  - destruct (m r p "" (λ _ _, true)) eqn:E.
    + split; [intros _|done]. apply m_iff in E as (p' & s' & H & _).
      by exists "", "", p', s'.
    + split; [done|]. intros (pre & rest & p' & s' & Heq & H).
      destruct pre; [|done]. change ("" +:+ rest) with rest in Heq. subst rest.
      rewrite <- E. apply m_iff. eauto.
  - destruct (m r p (String a s) (λ _ _, true)) eqn:E.
    + split; [intros _|done]. apply m_iff in E as (p' & s' & H & _).
      by exists "", (String a s), p', s'.
    + rewrite IH. split.
      * intros (pre & rest & p' & s' & -> & H).
        by exists (String a pre), rest, p', s'.
      * intros (pre & rest & p' & s' & Heq & H). destruct pre as [|b pre].
        -- change ("" +:+ rest) with rest in Heq. subst rest. simpl in H.
           assert (m r p (String a s) (λ _ _, true) = true) by (apply m_iff; eauto).
           congruence.
        -- change (String b pre +:+ rest) with (String b (pre +:+ rest)) in Heq.
           injection Heq as <- ->. by exists pre, rest, p', s'.
Qed.

Lemma search_iff r s :
  search r s = true ↔
  ∃ pre rest p' s', s = pre +:+ rest ∧ matches r (before None pre) rest p' s'.
Proof. apply search_from_iff. Qed.

Ltac each_char a := destruct a as [[] [] [] [] [] [] [] []].

Lemma lower_upper a : Char.lower (Char.upper_ascii a) = Char.lower a.
Proof. each_char a; reflexivity. Qed.

Lemma isspace_upper a : Char.isspace (Char.upper_ascii a) = Char.isspace a.
Proof. each_char a; reflexivity. Qed.

Lemma isword_upper a : Char.isword (Char.upper_ascii a) = Char.isword a.
Proof. each_char a; reflexivity. Qed.

Lemma newline_upper a : Ascii.eqb (Char.upper_ascii a) "010" = Ascii.eqb a "010".
Proof. each_char a; reflexivity. Qed.

Lemma upper_ascii_cases a :
  (Char.between 97 122 a = true ∧ Char.between 97 122 (Char.upper_ascii a) = false
   ∧ Char.lower a = a ∧ Char.lower (Char.upper_ascii a) = a
   ∧ Char.upper_ascii a = ascii_of_N (Char.code a - 32))
  ∨ (Char.between 97 122 a = false ∧ Char.upper_ascii a = a).
Proof.
  each_char a;
    first [by right | left; repeat split; reflexivity].
Qed.

Lemma in_class_upper ranges a : Re.in_class ranges (Char.upper_ascii a) = Re.in_class ranges a.
Proof.
  unfold Re.in_class. induction ranges as [|rg ranges IH]; [done|].
  simpl. rewrite IH. f_equal.
  destruct (upper_ascii_cases a) as [(H1 & H2 & H3 & H4 & H5) | (H1 & H2)].
  - rewrite H1, H2, H3, H4, <- H5. simpl.
    destruct (Re.in_range (Char.upper_ascii a) rg), (Re.in_range a rg); done.
  - by rewrite H2.
Qed.

Lemma length_upper s : String.length (Str.upper_ascii s) = String.length s.
Proof. induction s; simpl; by f_equal. Qed.

Lemma star_m_upper mr :
  (∀ p s k k', related k k' → mr p s k = mr (Char.upper_ascii <$> p) (Str.upper_ascii s) k') →
  ∀ n p s k k', related k k' →
    Re.star_m mr n p s k = Re.star_m mr n (Char.upper_ascii <$> p) (Str.upper_ascii s) k'.
Proof.
  intros Hmr. induction n as [|n IH]; intros p s k k' Hk; simpl.
  - by rewrite <- Hk.
  - rewrite <- Hk. destruct (k p s); [done|]. apply Hmr.
    intros p1 s1. rewrite !length_upper.
    destruct (_ <? _); [by apply IH | done].
Qed.

Lemma rep_m_upper mr rest :
  (∀ p s k k', related k k' → mr p s k = mr (Char.upper_ascii <$> p) (Str.upper_ascii s) k') →
  (∀ p s k k', related k k' → rest p s k = rest (Char.upper_ascii <$> p) (Str.upper_ascii s) k') →
  ∀ n p s k k', related k k' →
    Re.rep_m mr n rest p s k = Re.rep_m mr n rest (Char.upper_ascii <$> p) (Str.upper_ascii s) k'.
Proof.
  intros Hmr Hrest. induction n as [|n IH]; intros p s k k' Hk; simpl.
  - by apply Hrest.
  - apply Hmr. intros p1 s1. by apply IH.
Qed.

Lemma m_upper r : ∀ p s k k', related k k' →
  Re.m r p s k = Re.m r (Char.upper_ascii <$> p) (Str.upper_ascii s) k'.
Proof.
  induction r as [|c|neg ranges| | | |r1 IH1 r2 IH2|r1 IH1 r2 IH2|r IH|n r IH];
    intros p s k k' Hk; simpl.
  - apply Hk.
  - destruct s as [|a s]; [done|]. simpl. unfold Char.eq_ci.
    rewrite lower_upper. destruct (Ascii.eqb _ _); [apply Hk | done].
  - destruct s as [|a s]; [done|]. simpl. rewrite in_class_upper.
    destruct (xorb _ _); [apply Hk | done].
  - destruct s as [|a s]; [done|]. simpl. rewrite newline_upper.
    destruct (Ascii.eqb _ _); [done | apply Hk].
  - destruct s as [|a s]; [done|]. simpl. rewrite isspace_upper.
    destruct (Char.isspace _); [apply Hk | done].
  - assert (Re.opt_isword (Char.upper_ascii <$> p) = Re.opt_isword p) as ->.
    { destruct p; simpl; [apply isword_upper | done]. }
    assert (Re.opt_isword (Re.head (Str.upper_ascii s)) = Re.opt_isword (Re.head s)) as ->.
    { destruct s; simpl; [done | apply isword_upper]. }
    destruct (xorb _ _); [apply Hk | done].
  - apply IH1. intros p1 s1. by apply IH2.
  - rewrite <- (IH1 p s k k' Hk). destruct (Re.m r1 p s k); [done|]. by apply IH2.
  - rewrite length_upper. by apply star_m_upper.
  - apply rep_m_upper; [done| |done].
    intros p1 s1 k1 k1' Hk1. rewrite length_upper. by apply star_m_upper.
Qed.

Lemma search_from_upper r s : ∀ p,
  Re.search_from r (Char.upper_ascii <$> p) (Str.upper_ascii s) = Re.search_from r p s.
Proof.
  assert (Hk : related (λ _ _, true) (λ _ _, true)) by done.
  induction s as [|a s IH]; intros p.
  - cbn [Re.search_from Str.upper_ascii].
    by rewrite (m_upper r p "" _ _ Hk).
  - cbn [Re.search_from Str.upper_ascii].
    rewrite (m_upper r p (String a s) _ _ Hk). cbn [Str.upper_ascii].
    destruct (Re.m _ _ _ _); [done|]. apply (IH (Some a)).
Qed.

Lemma search_upper r s : Re.search r (Str.upper_ascii s) = Re.search r s.
Proof. apply (search_from_upper r s None). Qed.

End matcher.

(** ** Matching *)

Lemma omap_as_bind {A B} (g : A → option B) (l : list A) :
  omap g l = l ≫= (λ x, match g x with Some y => [y] | None => [] end).
Proof.
  induction l as [|x l IH]; [done|]. rewrite bind_cons, <- IH. simpl.
  by destruct (g x).
Qed.

Lemma omap_as_filter {A B} (P : A → bool) (h : A → B) (l : list A) :
  omap (λ x, if P x then Some (h x) else None) l
  = h <$> filter (λ x, P x = true) l.
Proof.
  induction l as [|x l IH]; [done|]. rewrite filter_cons.
  destruct (decide (P x = true)) as [E|E].
  - rewrite fmap_cons, <- IH. simpl. by rewrite E.
  - rewrite <- IH. simpl. by destruct (P x).
Qed.

Lemma scan_line_comment rel n line :
  is_comment (Str.strip line) = true → scan_line rel n line = [].
Proof. intros H. unfold scan_line. by rewrite H. Qed.

Lemma scan_line_matching rel n line :
  is_comment (Str.strip line) = false →
  scan_line rel n line
  = mk_finding rel n (Str.strip line) <$> matching (Str.strip line).
Proof.
  intros H. unfold scan_line, matching. rewrite H.
  apply (omap_as_filter (λ r : Catalog.rule, Re.search r.1.1.1 (Str.strip line))).
Qed.

Lemma scan_lines_zip rel lines : ∀ k,
  scan_lines rel k lines
  = zip (seq k (length lines)) lines ≫= (λ '(n, line), scan_line rel n line).
Proof.
  induction lines as [|line lines IH]; intros k; [done|].
  simpl. by rewrite IH.
Qed.

Lemma list_bind_ext_in {A B} (f g : A → list B) (l : list A) :
  (∀ x, x ∈ l → f x = g x) → l ≫= f = l ≫= g.
Proof.
  induction l as [|x l IH]; intros H; [done|].
  rewrite !bind_cons, H, IH; [done| |left]. intros y Hy. apply H. by right.
Qed.

Lemma bind_singleton {A B} (f : A → list B) (x : A) : [x] ≫= f = f x.
Proof. rewrite bind_cons. apply app_nil_r. Qed.

Lemma opened_walk_events fs n :
  ∀ top, opened (walk_events fs top n) = walk_files fs top n.
Proof.
  induction n as [c|es IH|es|target] using node_ind'; intros top; try done.
  cbn [walk_events walk_files].
  change (EvScandir top :: ?l) with ([EvScandir top] ++ l).
  rewrite !opened_app, opened_EvOpen, opened_bind. simpl opened at 1.
  rewrite app_nil_l. f_equal. apply list_bind_ext_in. intros [d sub] Hin.
  rewrite Forall_forall in IH. specialize (IH _ Hin). simpl in IH.
  by destruct (_ && _).
Qed.

Lemma opened_dir_events fs project_root target_files :
  opened (dir_events fs project_root target_files)
  = traversal fs project_root target_files.
Proof.
  unfold dir_events, traversal. destruct (truthy target_files).
  - apply opened_EvOpen.
  - destruct (FS.lookup fs project_root); [apply opened_walk_events | done].
Qed.

Lemma bind_file_findings fs project_root (l : list (list string)) :
  l ≫= file_findings fs project_root = discovery_order fs project_root l.
Proof.
  unfold discovery_order. apply list_bind_ext; [|done]. intros p.
  unfold file_findings.
  destruct (FS.read fs p) as [lines|]; [|done]. cbn [default].
  rewrite scan_lines_zip. apply list_bind_ext; [|done].
  intros [n line]. unfold scan_line.
  destruct (is_comment (Str.strip line)); cbn [negb andb].
  - generalize PATTERNS. intros rules.
    induction rules as [|r rules IH]; simpl; done.
  - rewrite omap_as_bind. apply list_bind_ext; [|done].
    intros r. by destruct (Re.search _ _).
Qed.

Lemma dir_findings_discovery fs project_root target_files :
  dir_findings fs project_root target_files
  = discovery_order fs project_root (traversal fs project_root target_files).
Proof.
  unfold dir_findings. by rewrite opened_dir_events, bind_file_findings.
Qed.

Lemma discovery_order_app fs project_root l1 l2 :
  discovery_order fs project_root (l1 ++ l2)
  = discovery_order fs project_root l1 ++ discovery_order fs project_root l2.
Proof. unfold discovery_order. apply bind_app. Qed.

Lemma discovery_order_unreadable fs project_root p :
  FS.read fs p = None → discovery_order fs project_root [p] = [].
Proof. intros H. unfold discovery_order. by rewrite bind_singleton, H. Qed.

Lemma elem_of_discovery_order fs project_root files p lines i line r :
  p ∈ files →
  FS.read fs p = Some lines →
  lines !! i = Some line →
  is_comment (Str.strip line) = false →
  r ∈ PATTERNS →
  Re.search r.1.1.1 (Str.strip line) = true →
  mk_finding (Path.relpath p project_root) (S i) (Str.strip line) r
    ∈ discovery_order fs project_root files.
Proof.
  intros Hp Hread Hi Hc Hr Hs. unfold discovery_order.
  apply list_elem_of_bind. exists p. split; [|done].
  rewrite Hread. cbn [default]. apply list_elem_of_bind. exists (S i, line).
  split.
  - apply list_elem_of_bind. exists r. split; [|done].
    rewrite Hc, Hs. cbn [negb andb]. left.
  - apply list_elem_of_lookup. exists i. rewrite lookup_zip_with.
    rewrite lookup_seq_lt by (by eapply lookup_lt_Some). simpl.
    by rewrite Hi.
Qed.

Lemma discovery_order_from fs project_root files f :
  f ∈ discovery_order fs project_root files →
  ∃ p, p ∈ files ∧ f ∈ discovery_order fs project_root [p].
Proof.
  unfold discovery_order. intros (p & Hf & Hp)%list_elem_of_bind.
  exists p. split; [done|]. rewrite bind_singleton. done.
Qed.

Lemma discovery_order_of fs project_root files p f :
  p ∈ files → f ∈ discovery_order fs project_root [p] →
  f ∈ discovery_order fs project_root files.
Proof.
  unfold discovery_order. rewrite bind_singleton.
  intros Hp Hf. apply list_elem_of_bind. by exists p.
Qed.

(** C3: a line whose trimmed content starts with [//], [#] or [*] gives no
    finding; the line [password = "abc123"] gives one finding, of severity
    critical and category Hardcoded Secret, and the same text after [// ]
    gives none. *)
Theorem comment_lines_yield_nothing :
  (∀ rel n line,
     Str.startswith (Str.strip line) "//" = true
     ∨ Str.startswith (Str.strip line) "#" = true
     ∨ Str.startswith (Str.strip line) "*" = true →
     scan_line rel n line = [])
  ∧ (∀ rel n,
       scan_line rel n Sample.pw_line
       = [mkFinding "critical" "Hardcoded Secret" rel n
            "Hardcoded password detected" Sample.pw_line])
  ∧ (∀ rel n, scan_line rel n ("// " +:+ Sample.pw_line) = []).
Proof.
  split; [|split].
  - intros rel n line H. apply scan_line_comment. unfold is_comment.
    destruct H as [-> | [-> | ->]]; by rewrite ?orb_true_r.
  - intros rel n. vm_compute. reflexivity.
  - intros rel n. vm_compute. reflexivity.
Qed.

Lemma comment_lines_yield_nothing_witness :
  Str.startswith (Str.strip ("   # token = 'abcdefghijklmnopqrstuv'" +:+ Sample.nl)) "#"
    = true
  ∧ scan_line "a.py" 7 ("   # token = 'abcdefghijklmnopqrstuv'" +:+ Sample.nl) = [].
Proof.
  split; [reflexivity|].
  apply (proj1 comment_lines_yield_nothing). right; left. reflexivity.
Defined.

Lemma matching_upper stripped :
  matching (Str.upper_ascii stripped) = matching stripped.
Proof.
  unfold matching. apply list_filter_iff. intros r. by rewrite search_upper.
Qed.

(** C4: on a line that is not a comment, the findings are the matching
    rules in catalog order, one finding per matching rule and nothing
    merged, so a line matching n rules gives n findings; which rules match
    does not depend on the case of the letters of the line.  The findings
    of a file are its lines in order, the rules in catalog order within a
    line, and the finding list of a scan is that of its files in traversal
    order, the traversal being read off the file tree.  So every rule
    that matches a line that is not a comment, in a file of the traversal,
    has its finding in the list. *)
Theorem one_finding_per_matching_rule :
  (∀ rel n line,
     is_comment (Str.strip line) = false →
     scan_line rel n line
       = mk_finding rel n (Str.strip line) <$> matching (Str.strip line)
     ∧ length (scan_line rel n line) = length (matching (Str.strip line)))
  ∧ (∀ stripped, matching (Str.upper_ascii stripped) = matching stripped)
  ∧ (∀ filepath project_root w,
       (scan_file filepath project_root w).1
       = discovery_order (w_fs w) project_root [filepath])
  ∧ (∀ project_root target_files w,
       (scan_directory project_root target_files w).1
       = discovery_order (w_fs w) project_root
           (traversal (w_fs w) project_root target_files)
       ∧ opened (trace_of (scan_directory project_root target_files) w)
         = traversal (w_fs w) project_root target_files)
  ∧ (∀ project_root target_files w p lines i line r,
       p ∈ traversal (w_fs w) project_root target_files →
       FS.read (w_fs w) p = Some lines →
       lines !! i = Some line →
       is_comment (Str.strip line) = false →
       r ∈ PATTERNS →
       Re.search r.1.1.1 (Str.strip line) = true →
       mk_finding (Path.relpath p project_root) (S i) (Str.strip line) r
         ∈ (scan_directory project_root target_files w).1).
Proof.
  split; [|split; [|split; [|split]]].
  - intros rel n line H. rewrite scan_line_matching by done.
    split; [done|]. by rewrite length_fmap.
  - apply matching_upper.
  - intros filepath project_root w. rewrite scan_file_extend. cbn [fst].
    rewrite <- bind_file_findings. by rewrite bind_singleton.
  - intros project_root target_files w.
    rewrite trace_of_scan_directory, scan_directory_extend. cbn [fst].
    split; [apply dir_findings_discovery | apply opened_dir_events].
  - intros project_root target_files w p lines i line r Hp Hread Hi Hc Hr Hs.
    rewrite scan_directory_extend. cbn [fst]. rewrite dir_findings_discovery.
    by eapply elem_of_discovery_order.
Qed.

Lemma one_finding_per_matching_rule_witness :
  is_comment (Str.strip "db.query(`select ${x}`); knex.raw(`x`)") = false
  ∧ length (scan_line "db.ts" 3 "db.query(`select ${x}`); knex.raw(`x`)") = 2
  ∧ mkFinding "critical" "Hardcoded Secret" "a.py" 1
      "Hardcoded password detected" Sample.pw_line
      ∈ (scan_directory Sample.root None Sample.w0).1.
Proof.
  split; [reflexivity|]. split.
  - destruct (proj1 one_finding_per_matching_rule "db.ts" 3
                "db.query(`select ${x}`); knex.raw(`x`)") as [_ ->];
      [reflexivity|].
    vm_compute. reflexivity.
  - pose proof (proj2 (proj2 (proj2 (proj2 one_finding_per_matching_rule)))
                  Sample.root None Sample.w0 ["home"; "proj"; "a.py"]
                  (FS.readlines ("  " +:+ Sample.pw_line +:+ Sample.nl +:+
                                 "// " +:+ Sample.pw_line +:+ Sample.nl +:+
                                 "x = eval(y)" +:+ Sample.nl))
                  0 ("  " +:+ Sample.pw_line +:+ Sample.nl)
                  (Re.seqs [Re.alts ["password"; "passwd"; "pwd"]; Catalog.ws;
                            Re.lit "="; Catalog.ws; Catalog.quote;
                            Re.Plus Catalog.not_quote; Catalog.quote],
                   "critical", "Hardcoded Secret",
                   "Hardcoded password detected")) as H.
    apply H.
    + vm_compute. left.
    + vm_compute. reflexivity.
    + vm_compute. reflexivity.
    + vm_compute. reflexivity.
    + left.
    + vm_compute. reflexivity.
Defined.

(** ** Snippets *)

Lemma length_slice_to n : ∀ s,
  String.length (Str.slice_to n s) = n `min` String.length s.
Proof.
  induction n as [|n IH]; intros [|c s]; simpl; try done. by rewrite IH.
Qed.

Lemma slice_to_prefix n : ∀ s, ∃ rest, s = Str.slice_to n s +:+ rest.
Proof.
  induction n as [|n IH]; intros [|c s]; simpl; eauto.
  destruct (IH s) as [rest Hrest]. exists rest. by rewrite Hrest at 1.
Qed.

Lemma slice_to_short n : ∀ s, String.length s ≤ n → Str.slice_to n s = s.
Proof.
  induction n as [|n IH]; intros [|c s] Hlen; simpl in *; try done; [lia|].
  rewrite IH; [done | lia].
Qed.

Lemma lstrip_split s : ∃ pre, s = pre +:+ Str.lstrip s ∧ Str.all_space pre = true.
Proof.
  induction s as [|c s (pre & Heq & Hsp)]; simpl.
  - by exists "".
  - destruct (Char.isspace c) eqn:Hc.
    + exists (String c pre). simpl. rewrite Hc, Hsp. split; [|done].
      by rewrite Heq at 1.
    + by exists "".
Qed.

Lemma rstrip_split s : ∃ post, s = Str.rstrip s +:+ post ∧ Str.all_space post = true.
Proof.
  induction s as [|c s (post & Heq & Hsp)]; simpl.
  - by exists "".
  - destruct (Str.rstrip s) as [|a r] eqn:Hr.
    + change ("" +:+ post) with post in Heq. subst s.
      destruct (Char.isspace c) eqn:Hc.
      * exists (String c post). simpl. by rewrite Hc, Hsp.
      * by exists post.
    + exists post. split; [|done]. by rewrite Heq at 1.
Qed.

Lemma strip_split s :
  ∃ pre post, s = pre +:+ Str.strip s +:+ post
              ∧ Str.all_space pre = true ∧ Str.all_space post = true.
Proof.
  destruct (lstrip_split s) as (pre & Hpre & Hsp1).
  destruct (rstrip_split (Str.lstrip s)) as (post & Hpost & Hsp2).
  exists pre, post. unfold Str.strip. by rewrite <- Hpost, <- Hpre.
Qed.

Lemma elem_of_scan_lines f rel lines : ∀ start,
  f ∈ scan_lines rel start lines →
  ∃ i ln, lines !! i = Some ln ∧ f ∈ scan_line rel (start + i) ln.
Proof.
  induction lines as [|ln lines IH]; intros start; simpl.
  - by intros ?%not_elem_of_nil.
  - rewrite elem_of_app. intros [H|H].
    + exists 0, ln. by rewrite Nat.add_0_r.
    + destruct (IH _ H) as (i & ln' & Hi & Hf). exists (S i), ln'.
      split; [done|]. by rewrite Nat.add_succ_r.
Qed.

Lemma elem_of_scan_line f rel n ln :
  f ∈ scan_line rel n ln →
  line f = n ∧ file f = rel ∧ snippet f = Str.slice_to 120 (Str.strip ln)
  ∧ ∃ r, r ∈ matching (Str.strip ln)
         ∧ f = mk_finding rel n (Str.strip ln) r.
Proof.
  unfold scan_line. destruct (is_comment (Str.strip ln)) eqn:Hc.
  - by intros ?%not_elem_of_nil.
  - intros (r & Hr & Hf)%list_elem_of_omap.
    destruct (Re.search _ _) eqn:Hs; [|done]. injection Hf as <-.
    assert (Hm : r ∈ matching (Str.strip ln)) by by apply list_elem_of_filter.
    destruct r as [[[pat sev] cat] msg]. simpl. eauto 10.
Qed.

(** C9: the snippet of a finding is the content of its line (the line
    without the white space around it, as [strip] leaves it) cut to at most
    120 characters: it is at most 120 characters long, it is the beginning
    of the content, unchanged, and it is the whole content when that has at
    most 120 characters.  So a matched line of 500 characters has a snippet
    of at most 120. *)
Theorem snippet_truncated
    (rel : string) (start : nat) (lines : list string) (f : Finding) :
  f ∈ scan_lines rel start lines →
  ∃ i ln pre post,
    lines !! i = Some ln ∧ line f = start + i
    ∧ ln = pre +:+ Str.strip ln +:+ post
    ∧ Str.all_space pre = true ∧ Str.all_space post = true
    ∧ snippet f = Str.slice_to 120 (Str.strip ln)
    ∧ String.length (snippet f) ≤ 120
    ∧ (∃ rest, Str.strip ln = snippet f +:+ rest)
    ∧ (String.length (Str.strip ln) ≤ 120 → snippet f = Str.strip ln).
Proof.
  intros (i & ln & Hi & Hf)%elem_of_scan_lines.
  apply elem_of_scan_line in Hf as (Hline & _ & Hsn & _).
  destruct (strip_split ln) as (pre & post & Hsplit & Hpre & Hpost).
  exists i, ln, pre, post. rewrite Hsn.
  repeat split; try done.
  - rewrite length_slice_to. lia.
  - apply slice_to_prefix.
  - apply slice_to_short.
Qed.

Lemma snippet_truncated_witness :
  ∃ f, f ∈ scan_lines "min.js" 1 [Sample.long_line +:+ Sample.nl]
       ∧ String.length Sample.long_line = 500
       ∧ String.length (snippet f) ≤ 120.
Proof.
  exists (mkFinding "high" "Code Injection" "min.js" 1
            "eval() is a code injection vector — avoid entirely"
            (Str.slice_to 120 Sample.long_line)).
  assert (H : mkFinding "high" "Code Injection" "min.js" 1
            "eval() is a code injection vector — avoid entirely"
            (Str.slice_to 120 Sample.long_line)
          ∈ scan_lines "min.js" 1 [Sample.long_line +:+ Sample.nl])
    by (vm_compute; left).
  split; [exact H|]. split; [reflexivity|].
  destruct (snippet_truncated _ _ _ _ H)
    as (i & ln & pre & post & _ & _ & _ & _ & _ & _ & Hlen & _).
  exact Hlen.
Defined.

(** ** Which files are scanned *)

Lemma listed_EvOpen l : listed (EvOpen <$> l) = [].
Proof. by induction l. Qed.

Lemma dir_findings_scan_file fs cwd log project_root target_files :
  dir_findings fs project_root target_files
  = opened (dir_events fs project_root target_files)
      ≫= (λ p, (scan_file p project_root (mkWorld fs cwd log)).1).
Proof.
  unfold dir_findings. apply list_bind_ext; [|done].
  intros p. by rewrite scan_file_extend.
Qed.

Lemma findings_from_opened project_root target_files w :
  (scan_directory project_root target_files w).1
  = opened (trace_of (scan_directory project_root target_files) w)
      ≫= (λ p, (scan_file p project_root w).1).
Proof.
  rewrite trace_of_scan_directory, scan_directory_extend. simpl.
  destruct w as [fs cwd log]. apply dir_findings_scan_file.
Qed.

Lemma walk_event_ok_step top d e :
  d ∉ SKIP_DIRS → walk_event_ok (top ++ [d]) e → walk_event_ok top e.
Proof.
  intros Hd. destruct e as [p|p|o]; simpl; [| |done].
  - intros (rel & -> & Hrel). exists (d :: rel).
    split; [by rewrite <- app_assoc | by constructor].
  - intros (rel & name & -> & Hrel & Hext). exists (d :: rel), name.
    split; [by rewrite <- !app_assoc | split; [by constructor | done]].
Qed.

Lemma walk_events_ok fs n :
  ∀ top, Forall (walk_event_ok top) (walk_events fs top n).
Proof.
  induction n as [c|es IH|es|target] using node_ind'; intros top; simpl;
    try done.
  constructor; [|apply Forall_app; split].
  - exists []. by rewrite app_nil_r.
  - unfold dir_files. apply Forall_fmap, Forall_fmap, Forall_forall.
    intros name (Hext & _)%list_elem_of_filter. simpl. by exists [], name.
  - apply Forall_bind, Forall_forall. intros [d sub] Hin. simpl.
    rewrite Forall_forall in IH. specialize (IH _ Hin). simpl in IH.
    destruct (FS.is_dir sub); simpl; [|done].
    case_bool_decide as Hd; [|done].
    eapply Forall_impl; [apply IH|]. intros e. by apply walk_event_ok_step.
Qed.

Lemma walk_mode_events_ok fs project_root target_files :
  truthy target_files = false →
  Forall (walk_event_ok project_root) (dir_events fs project_root target_files).
Proof.
  intros Ht. unfold dir_events. rewrite Ht.
  destruct (FS.lookup fs project_root); [apply walk_events_ok | done].
Qed.

(** C5, as the code has it: when the caller supplies a file subset that is
    not empty, no directory is listed; the files opened are exactly the
    supplied paths that are files, each joined to the root unless absolute,
    in the order given; the findings are those of these files; and a
    supplied path that is not a file is passed over without any event and
    without findings. *)
Theorem nonempty_subset_only
    (project_root : list string) (l : list Path.t) (w : world) :
  l ≠ [] →
  let tr := trace_of (scan_directory project_root (Some l)) w in
  let paths := filter (λ p, FS.isfile (w_fs w) p = true)
                      (Path.join_unless_abs project_root <$> l) in
  tr = EvOpen <$> paths
  ∧ listed tr = []
  ∧ (scan_directory project_root (Some l) w).1
    = paths ≫= (λ p, (scan_file p project_root w).1)
  ∧ ∀ fpath,
      FS.isfile (w_fs w) (Path.join_unless_abs project_root fpath) = false →
      scan_target project_root fpath w = ([], w).
Proof.
  intros Hl tr paths.
  assert (Htr : tr = EvOpen <$> paths).
  { unfold tr. rewrite trace_of_scan_directory. unfold dir_events.
    by destruct l. }
  split; [done|]. split; [by rewrite Htr, listed_EvOpen|]. split.
  - rewrite findings_from_opened. fold tr. by rewrite Htr, opened_EvOpen.
  - intros fpath Hf. rewrite scan_target_extend. simpl. rewrite Hf.
    by rewrite extend_nil.
Qed.

Lemma nonempty_subset_only_witness :
  Sample.subset ≠ []
  ∧ trace_of (scan_directory Sample.root (Some Sample.subset)) Sample.w0
    = [EvOpen ["home"; "proj"; "notes.txt"];
       EvOpen ["home"; "proj"; "src"; "db.ts"]].
Proof.
  assert (H : Sample.subset ≠ []) by done.
  split; [exact H|].
  destruct (nonempty_subset_only Sample.root Sample.subset Sample.w0 H)
    as [-> _].
  reflexivity.
Defined.

(** C5 as stated fails on the empty subset: with [--files] and no names the
    whole tree is walked, directories are listed and files that were not
    supplied are opened and give findings. *)
Lemma empty_subset_walks :
  let tr := trace_of (scan_directory Sample.root (Some [])) Sample.w0 in
  listed tr = [["home"; "proj"]; ["home"; "proj"; "src"]]
  ∧ opened tr
    = [["home"; "proj"; "a.py"]; ["home"; "proj"; "secret.py"];
       ["home"; "proj"; "z.rb"]; ["home"; "proj"; "src"; "db.ts"]]
  ∧ length (scan_directory Sample.root (Some []) Sample.w0).1 = 5
  ∧ ¬ (listed tr = []
       ∧ ∀ p, p ∈ opened tr →
              p ∈ Path.join_unless_abs Sample.root <$> ([] : list Path.t)).
Proof.
  assert (H : listed (trace_of (scan_directory Sample.root (Some []))
                        Sample.w0)
              = [["home"; "proj"]; ["home"; "proj"; "src"]])
    by (vm_compute; reflexivity).
  cbv zeta. split; [exact H|]. split; [vm_compute; reflexivity|].
  split; [vm_compute; reflexivity|].
  intros [Hnil _]. rewrite H in Hnil. discriminate.
Qed.

(** C6: in a scan without an explicit subset, no directory whose name is
    excluded is ever listed, below the root; no file under such a directory
    is opened; and every finding comes from a file that was opened.  So a
    file inside an excluded directory contributes nothing, whatever it
    holds. *)
Theorem excluded_dirs_pruned
    (project_root : list string) (target_files : option (list Path.t))
    (w : world) (d : string) (pre post : list string) :
  truthy target_files = false →
  d ∈ SKIP_DIRS →
  let tr := trace_of (scan_directory project_root target_files) w in
  (EvScandir (project_root ++ pre ++ d :: post) ∉ tr)
  ∧ (post ≠ [] → EvOpen (project_root ++ pre ++ d :: post) ∉ tr)
  ∧ (scan_directory project_root target_files w).1
    = opened tr ≫= (λ p, (scan_file p project_root w).1).
Proof.
  intros Ht Hd tr.
  assert (Hok : Forall (walk_event_ok project_root) tr).
  { unfold tr. rewrite trace_of_scan_directory.
    by apply walk_mode_events_ok. }
  rewrite Forall_forall in Hok. split; [|split].
  - intros (rel & Heq & Hrel)%Hok. apply app_inv_head in Heq. subst rel.
    rewrite Forall_app, Forall_cons in Hrel. tauto.
  - intros Hpost (rel & name & Heq & Hrel & _)%Hok.
    apply app_inv_head in Heq.
    destruct (exists_last Hpost) as (post' & x & ->).
    change (pre ++ d :: post' ++ [x]) with (pre ++ (d :: post') ++ [x]) in Heq.
    rewrite app_assoc in Heq. apply app_inj_tail in Heq as [<- _].
    rewrite Forall_app, Forall_cons in Hrel. tauto.
  - apply findings_from_opened.
Qed.

Lemma excluded_dirs_pruned_witness :
  truthy (None : option (list Path.t)) = false
  ∧ "node_modules" ∈ SKIP_DIRS
  ∧ length (scan_file ["home"; "proj"; "node_modules"; "lib.js"]
                       Sample.root Sample.w0).1 = 1
  ∧ (EvScandir ["home"; "proj"; "node_modules"]
       ∉ trace_of (scan_directory Sample.root None) Sample.w0)
  ∧ (EvOpen ["home"; "proj"; "node_modules"; "lib.js"]
       ∉ trace_of (scan_directory Sample.root None) Sample.w0).
Proof.
  assert (Ht : truthy (None : option (list Path.t)) = false) by reflexivity.
  assert (Hd : "node_modules" ∈ SKIP_DIRS) by (by vm_compute).
  split; [exact Ht|]. split; [exact Hd|]. split; [reflexivity|].
  split.
  - apply (excluded_dirs_pruned Sample.root None Sample.w0 "node_modules"
             [] [] Ht Hd).
  - refine (proj1 (proj2 (excluded_dirs_pruned Sample.root None Sample.w0
              "node_modules" [] ["lib.js"] Ht Hd)) _). done.
Defined.

Lemma opened_main_events fs cwd a :
  FS.isdir fs (Path.abspath cwd (a_path a)) = true →
  ∃ t1 t2, main_events fs cwd a
           = t1 ++ dir_events fs (Path.abspath cwd (a_path a)) (a_files a) ++ t2.
Proof. intros H. unfold main_events. rewrite H. eauto. Qed.

(** ** Decoding *)

Lemma code_lt_256 b : (Char.code b < 256)%N.
Proof. apply N_ascii_bounded. Qed.

Lemma code_of_N x : (x < 256)%N → Char.code (ascii_of_N x) = x.
Proof. apply N_ascii_embedding. Qed.

Lemma char_of_code b : Utf8.char_of (Char.code b) = b.
Proof.
  unfold Utf8.char_of. pose proof (code_lt_256 b).
  destruct (N.leb_spec (Char.code b) 255); [|lia].
  apply ascii_N_embedding.
Qed.

Lemma char_of_high cp :
  (128 ≤ cp)%N → (Char.code (Utf8.char_of cp) <? 128)%N = false.
Proof.
  intros H. unfold Utf8.char_of. apply N.ltb_ge.
  destruct (N.leb_spec cp 255).
  - rewrite code_of_N by lia. done.
  - by vm_compute.
Qed.

Lemma is_cont_range b :
  Utf8.is_cont b = true ↔ (128 ≤ Char.code b ≤ 191)%N.
Proof.
  unfold Utf8.is_cont, Char.between. rewrite andb_true_iff, !N.leb_le. done.
Qed.

Lemma ascii_part_cont b s :
  Utf8.is_cont b = true → Utf8.ascii_part (String b s) = Utf8.ascii_part s.
Proof.
  intros [H _]%is_cont_range. cbn [Utf8.ascii_part].
  by rewrite (proj2 (N.ltb_ge _ _) H).
Qed.

Lemma ascii_part_high_code cp (l : list N) :
  (128 ≤ cp)%N →
  Utf8.ascii_part (string_of_list_ascii (Utf8.char_of <$> cp :: l))
  = Utf8.ascii_part (string_of_list_ascii (Utf8.char_of <$> l)).
Proof.
  intros H. rewrite fmap_cons. cbn [string_of_list_ascii Utf8.ascii_part].
  by rewrite char_of_high.
Qed.

Lemma bad_second_of3_false b1 b2 :
  Utf8.bad_second_of3 b1 b2 = false →
  Utf8.is_cont b2 = true
  ∧ (Char.code b1 = 224 → 160 ≤ Char.code b2)%N
  ∧ (Char.code b1 = 237 → Char.code b2 < 160)%N.
Proof.
  unfold Utf8.bad_second_of3. destruct (Utf8.is_cont b2); [|done].
  destruct (N.ltb_spec (Char.code b2) 160); intros ?%N.eqb_neq; split; try done;
    split; intros; lia.
Qed.

Lemma bad_second_of4_false b1 b2 :
  Utf8.bad_second_of4 b1 b2 = false →
  Utf8.is_cont b2 = true
  ∧ (Char.code b1 = 240 → 144 ≤ Char.code b2)%N
  ∧ (Char.code b1 = 244 → Char.code b2 < 144)%N.
Proof.
  unfold Utf8.bad_second_of4. destruct (Utf8.is_cont b2); [|done].
  destruct (N.ltb_spec (Char.code b2) 144); intros ?%N.eqb_neq; split; try done;
    split; intros; lia.
Qed.

Lemma ascii_part_text_le n : ∀ bs,
  String.length bs ≤ n → Utf8.ascii_part (Utf8.text bs) = Utf8.ascii_part bs.
Proof.
  unfold Utf8.text.
  induction n as [|n IH]; intros bs Hn.
  { destruct bs; [done|simpl in Hn; lia]. }
  destruct bs as [|b1 r1]; [done|]. simpl in Hn.
  cbn [Utf8.decode].
  destruct (N.ltb_spec (Char.code b1) 128) as [H1|H1].
  { rewrite fmap_cons. cbn [string_of_list_ascii Utf8.ascii_part].
    rewrite char_of_code, (proj2 (N.ltb_lt _ _) H1), IH by lia. done. }
  assert (Hb1 : Utf8.ascii_part (String b1 r1) = Utf8.ascii_part r1).
  { cbn [Utf8.ascii_part]. by rewrite (proj2 (N.ltb_ge _ _) H1). }
  rewrite Hb1.
  destruct (N.ltb_spec (Char.code b1) 194) as [H2|H2]; [apply IH; lia|].
  destruct (N.ltb_spec (Char.code b1) 224) as [H3|H3].
  { destruct r1 as [|b2 r2]; [done|]. simpl in Hn.
    destruct (Utf8.is_cont b2) eqn:C2; [|apply IH; simpl; lia].
    pose proof (proj1 (is_cont_range b2) C2).
    rewrite ascii_part_high_code by (unfold Utf8.code2; lia).
    rewrite ascii_part_cont by done. apply IH. lia. }
  destruct (N.ltb_spec (Char.code b1) 240) as [H4|H4].
  { destruct r1 as [|b2 r2]; [done|]. simpl in Hn.
    destruct (Utf8.bad_second_of3 b1 b2) eqn:B2; [apply IH; simpl; lia|].
    apply bad_second_of3_false in B2 as (C2 & Hlo & _).
    pose proof (proj1 (is_cont_range b2) C2).
    rewrite (ascii_part_cont b2) by done.
    destruct r2 as [|b3 r3]; [done|]. simpl in Hn.
    destruct (Utf8.is_cont b3) eqn:C3; [|apply IH; simpl; lia].
    pose proof (proj1 (is_cont_range b3) C3).
    rewrite ascii_part_high_code by (unfold Utf8.code3; lia).
    rewrite ascii_part_cont by done. apply IH. lia. }
  destruct (N.ltb_spec (Char.code b1) 245) as [H5|H5]; [|apply IH; lia].
  destruct r1 as [|b2 r2]; [done|]. simpl in Hn.
  destruct (Utf8.bad_second_of4 b1 b2) eqn:B2; [apply IH; simpl; lia|].
  apply bad_second_of4_false in B2 as (C2 & Hlo & _).
  pose proof (proj1 (is_cont_range b2) C2).
  rewrite (ascii_part_cont b2) by done.
  destruct r2 as [|b3 r3]; [done|]. simpl in Hn.
  destruct (Utf8.is_cont b3) eqn:C3; [|apply IH; simpl; lia].
  pose proof (proj1 (is_cont_range b3) C3).
  rewrite (ascii_part_cont b3) by done.
  destruct r3 as [|b4 r4]; [done|]. simpl in Hn.
  destruct (Utf8.is_cont b4) eqn:C4; [|apply IH; simpl; lia].
  pose proof (proj1 (is_cont_range b4) C4).
  rewrite ascii_part_high_code by (unfold Utf8.code4; lia).
  rewrite ascii_part_cont by done. apply IH. lia.
Qed.

Lemma ascii_part_text bs : Utf8.ascii_part (Utf8.text bs) = Utf8.ascii_part bs.
Proof. by apply (ascii_part_text_le (String.length bs)). Qed.

Lemma append_cons c (s r : string) : String c s +:+ r = String c (s +:+ r).
Proof. done. Qed.

Lemma text_step_ascii b r :
  (Char.code b < 128)%N → Utf8.text (String b r) = String b (Utf8.text r).
Proof.
  intros H. unfold Utf8.text. cbn [Utf8.decode].
  rewrite (proj2 (N.ltb_lt _ _) H), fmap_cons, char_of_code. done.
Qed.

Lemma encode_high_bytes c :
  (128 ≤ Char.code c)%N →
  (194 ≤ Char.code (ascii_of_N (192 + Char.code c / 64)) < 224)%N
  ∧ Utf8.is_cont (ascii_of_N (128 + Char.code c mod 64)) = true
  ∧ Utf8.code2 (ascii_of_N (192 + Char.code c / 64))
               (ascii_of_N (128 + Char.code c mod 64)) = Char.code c.
Proof.
  intros H. pose proof (code_lt_256 c) as Hc.
  pose proof (N.div_mod (Char.code c) 64 ltac:(lia)) as Hdm.
  pose proof (N.mod_lt (Char.code c) 64 ltac:(lia)) as Hr.
  set (q := (Char.code c / 64)%N) in *. set (r := (Char.code c mod 64)%N) in *.
  assert (Hq : (2 ≤ q < 4)%N) by lia.
  rewrite is_cont_range. unfold Utf8.code2.
  rewrite !code_of_N by lia. lia.
Qed.

Lemma text_step_two c r :
  (128 ≤ Char.code c)%N →
  Utf8.text (String (ascii_of_N (192 + Char.code c / 64))
               (String (ascii_of_N (128 + Char.code c mod 64)) r))
  = String c (Utf8.text r).
Proof.
  intros H. destruct (encode_high_bytes c H) as ([H1 H2] & Hk & Hcp).
  unfold Utf8.text. cbn [Utf8.decode].
  rewrite (proj2 (N.ltb_ge _ 128)) by lia.
  rewrite (proj2 (N.ltb_ge _ 194)) by lia.
  rewrite (proj2 (N.ltb_lt _ 224)) by lia.
  rewrite Hk, Hcp, fmap_cons, char_of_code. done.
Qed.

Lemma text_encode_app t : ∀ rest,
  Utf8.text (Utf8.encode t +:+ rest) = t +:+ Utf8.text rest.
Proof.
  induction t as [|c t IH]; intros rest; [done|].
  cbn [Utf8.encode]. destruct (N.ltb_spec (Char.code c) 128) as [H|H].
  - rewrite !append_cons, text_step_ascii by done. by rewrite IH.
  - rewrite !append_cons, text_step_two by done. by rewrite IH.
Qed.

Lemma append_nil_r (s : string) : s +:+ "" = s.
Proof. induction s as [|c s IH]; [done|]. by rewrite append_cons, IH. Qed.

Lemma text_encode t : Utf8.text (Utf8.encode t) = t.
Proof.
  rewrite <- (append_nil_r (Utf8.encode t)), text_encode_app.
  apply append_nil_r.
Qed.

Lemma encode_head t b r :
  Utf8.encode t = String b r → Utf8.is_cont b = false.
Proof.
  destruct t as [|c t]; [done|]. cbn [Utf8.encode].
  destruct (N.ltb_spec (Char.code c) 128) as [H|H]; intros [= <- _].
  - apply not_true_is_false. rewrite is_cont_range. lia.
  - destruct (encode_high_bytes c H) as (Hl & _).
    apply not_true_is_false. rewrite is_cont_range. lia.
Qed.

Lemma text_stray_byte b t :
  (128 ≤ Char.code b)%N →
  Utf8.text (String b (Utf8.encode t)) = Utf8.text (Utf8.encode t).
Proof.
  intros H. unfold Utf8.text. f_equal. f_equal. cbn [Utf8.decode].
  rewrite (proj2 (N.ltb_ge _ 128)) by done.
  destruct (Utf8.encode t) as [|b2 r2] eqn:E.
  { by repeat destruct (_ <? _)%N. }
  apply encode_head in E.
  unfold Utf8.bad_second_of3, Utf8.bad_second_of4. rewrite E.
  by repeat destruct (_ <? _)%N.
Qed.

Lemma text_absorbs t1 b t2 :
  (128 ≤ Char.code b)%N →
  Utf8.text (Utf8.encode t1 +:+ String b (Utf8.encode t2)) = t1 +:+ t2.
Proof.
  intros H. by rewrite text_encode_app, text_stray_byte, text_encode.
Qed.

Lemma scan_file_decodes fs cwd log p project_root bytes :
  FS.lookup fs p = Some (FS.File (Some bytes)) →
  scan_file p project_root (mkWorld fs cwd log)
  = (scan_lines (Path.relpath p project_root) 1
       (FS.readlines (Utf8.text bytes)),
     extend (mkWorld fs cwd log) [EvOpen p]).
Proof.
  intros H. rewrite scan_file_extend. unfold file_findings, FS.read.
  cbn [w_fs]. by rewrite H.
Qed.

(** C7: the invocation ends with a nonzero status and nothing scanned (no
    directory listed, no file opened) exactly when the root is not an
    existing directory, and then it only prints the error and returns 1.  A
    file that cannot be read makes [scan_file] return no finding instead of
    failing, and the scan goes on: wherever such a file stands in the
    traversal, every file of the traversal is opened and the findings are
    those of the files before it followed by those of the files after it.
    Decoding never fails: whatever bytes a file that can be opened holds,
    [scan_file] returns the findings of the text decoded from them; a byte
    that belongs to no well-formed sequence is dropped and the text around
    it is kept, well-formed text is read as it was written, and no ASCII
    byte of the file is lost. *)
Theorem fatal_only_on_bad_root (a : args) (w : world) :
  let project_root := Path.abspath (w_cwd w) (a_path a) in
  (FS.isdir (w_fs w) project_root = false ↔
     (main a w).1 ≠ 0
     ∧ opened (trace_of (main a) w) = []
     ∧ listed (trace_of (main a) w) = [])
  ∧ (FS.isdir (w_fs w) project_root = false →
     main a w = (1, extend w [EvPrint (OutDirNotFound project_root)]))
  ∧ (∀ p root, FS.read (w_fs w) p = None →
               scan_file p root w = ([], extend w [EvOpen p]))
  ∧ (∀ root target_files pre p post,
       traversal (w_fs w) root target_files = pre ++ p :: post →
       FS.read (w_fs w) p = None →
       opened (trace_of (scan_directory root target_files) w)
         = pre ++ p :: post
       ∧ (scan_directory root target_files w).1
         = discovery_order (w_fs w) root pre
           ++ discovery_order (w_fs w) root post)
  ∧ (∀ p root bytes,
       FS.lookup (w_fs w) p = Some (FS.File (Some bytes)) →
       scan_file p root w
       = (scan_lines (Path.relpath p root) 1 (FS.readlines (Utf8.text bytes)),
          extend w [EvOpen p]))
  ∧ (∀ t1 b t2,
       (128 ≤ Char.code b)%N →
       Utf8.text (Utf8.encode t1 +:+ String b (Utf8.encode t2)) = t1 +:+ t2)
  ∧ (∀ t, Utf8.text (Utf8.encode t) = t)
  ∧ (∀ bytes, Utf8.ascii_part (Utf8.text bytes) = Utf8.ascii_part bytes).
Proof.
  intros project_root.
  assert (Hbad : FS.isdir (w_fs w) project_root = false →
                 main a w = (1, extend w [EvPrint (OutDirNotFound project_root)])).
  { intros H. rewrite main_extend. unfold main_status, main_events.
    fold project_root. by rewrite H. }
  split; [|split; [done|split; [|split; [|split; [|split; [|split]]]]]].
  - split.
    + intros H. rewrite (trace_of_extend _ _ _ _ (Hbad H)), (Hbad H). done.
    + intros (Hexit & Hopen & _).
      destruct (FS.isdir (w_fs w) project_root) eqn:Hdir; [exfalso|done].
      rewrite main_extend in Hexit. simpl in Hexit.
      unfold main_status in Hexit. fold project_root in Hexit.
      rewrite Hdir in Hexit.
      apply exit_status_critical in Hexit as (f & Hf & _).
      rewrite trace_of_main in Hopen.
      destruct (opened_main_events (w_fs w) (w_cwd w) a Hdir)
        as (t1 & t2 & Heq).
      rewrite Heq, !opened_app in Hopen.
      apply app_eq_nil in Hopen as [_ Hopen].
      apply app_eq_nil in Hopen as [Hopen _].
      unfold dir_findings in Hf. fold project_root in Hopen.
      rewrite Hopen in Hf. by apply not_elem_of_nil in Hf.
  - intros p root Hread. rewrite scan_file_extend. unfold file_findings.
    by rewrite Hread.
  - intros root target_files pre p post Htr Hread.
    rewrite trace_of_scan_directory, scan_directory_extend. cbn [fst].
    rewrite opened_dir_events, dir_findings_discovery, Htr.
    split; [done|].
    change (p :: post) with ([p] ++ post).
    rewrite !discovery_order_app, (discovery_order_unreadable _ _ p) by done.
    done.
  - intros p root bytes H. destruct w as [fs cwd log].
    by apply scan_file_decodes.
  - apply text_absorbs.
  - apply text_encode.
  - apply ascii_part_text.
Qed.

Lemma fatal_only_on_bad_root_witness :
  FS.isdir (w_fs Sample.w0)
    (Path.abspath (w_cwd Sample.w0) (Path.mk false ["missing"])) = false
  ∧ main (mkArgs (Path.mk false ["missing"]) "low" None) Sample.w0
    = (1, extend Sample.w0 [EvPrint (OutDirNotFound ["home"; "proj"; "missing"])])
  ∧ FS.read (w_fs Sample.w0) ["home"; "proj"; "secret.py"] = None
  ∧ scan_file ["home"; "proj"; "secret.py"] Sample.root Sample.w0
    = ([], extend Sample.w0 [EvOpen ["home"; "proj"; "secret.py"]])
  ∧ opened (trace_of (scan_directory Sample.root None) Sample.w0)
    = [["home"; "proj"; "a.py"]; ["home"; "proj"; "secret.py"];
       ["home"; "proj"; "z.rb"]; ["home"; "proj"; "src"; "db.ts"]]
  ∧ (scan_directory Sample.root None Sample.w0).1
    = discovery_order Sample.tree Sample.root [["home"; "proj"; "a.py"]]
      ++ discovery_order Sample.tree Sample.root
           [["home"; "proj"; "z.rb"]; ["home"; "proj"; "src"; "db.ts"]]
  ∧ file <$> (scan_directory Sample.root None Sample.w0).1
    = ["a.py"; "a.py"; "z.rb"; "src/db.ts"; "src/db.ts"]
  ∧ Utf8.text Sample.raw_bytes = "password = 'xy'"
  ∧ (scan_file ["raw.py"] [] (mkWorld Sample.raw_tree [] [])).1
    = [mkFinding "critical" "Hardcoded Secret" "raw.py" 1
         "Hardcoded password detected" "password = 'xy'"].
Proof.
  pose proof (fatal_only_on_bad_root
                (mkArgs (Path.mk false ["missing"]) "low" None) Sample.w0)
    as (_ & Hbad & Hread & Hgo & _).
  pose proof (fatal_only_on_bad_root Sample.args_low
                (mkWorld Sample.raw_tree [] []))
    as (_ & _ & _ & _ & Hdec & _).
  split; [reflexivity|]. split; [apply Hbad; reflexivity|].
  split; [reflexivity|]. split; [apply Hread; reflexivity|].
  destruct (Hgo Sample.root None [["home"; "proj"; "a.py"]]
              ["home"; "proj"; "secret.py"]
              [["home"; "proj"; "z.rb"]; ["home"; "proj"; "src"; "db.ts"]])
    as [Hopen Hfind]; [by vm_compute | reflexivity |].
  split; [exact Hopen|]. split; [exact Hfind|].
  split; [vm_compute; reflexivity|]. split; [vm_compute; reflexivity|].
  rewrite (Hdec ["raw.py"] [] Sample.raw_bytes) by reflexivity.
  vm_compute. reflexivity.
Defined.

(** C8: a scan leaves the file tree as it found it, and its findings depend
    on the file tree alone, not on the log nor on the working directory: a
    second scan, run in the world the first one leaves, returns the same
    finding list in the same order, and so does a scan in any world with
    the same tree.  A whole invocation run again gives the same exit status
    and the same events. *)
Theorem scan_deterministic
    (project_root : list string) (target_files : option (list Path.t))
    (a : args) (w : world) :
  let r1 := scan_directory project_root target_files w in
  (scan_directory project_root target_files r1.2).1 = r1.1
  ∧ w_fs r1.2 = w_fs w
  ∧ (∀ w', w_fs w' = w_fs w →
           (scan_directory project_root target_files w').1 = r1.1)
  ∧ (main a (main a w).2).1 = (main a w).1
  ∧ trace_of (main a) (main a w).2 = trace_of (main a) w.
Proof.
  cbv zeta. rewrite !trace_of_main, !main_extend.
  rewrite (scan_directory_extend _ _ w).
  cbn [fst snd]. rewrite !scan_directory_extend, !w_fs_extend, !w_cwd_extend.
  cbn [fst snd].
  repeat split; try done.
  intros w' Hw'. rewrite scan_directory_extend. cbn [fst]. by rewrite Hw'.
Qed.

Lemma scan_deterministic_witness :
  w_fs (mkWorld Sample.tree [] [EvPrint OutBanner]) = w_fs Sample.w0
  ∧ (scan_directory Sample.root None
       (mkWorld Sample.tree [] [EvPrint OutBanner])).1
    = (scan_directory Sample.root None Sample.w0).1.
Proof.
  split; [reflexivity|].
  apply (scan_deterministic Sample.root None Sample.args_low Sample.w0).
  reflexivity.
Defined.

Lemma elem_of_opened p tr : p ∈ opened tr ↔ EvOpen p ∈ tr.
Proof.
  unfold opened. rewrite list_elem_of_omap. split.
  - intros ([q|q|o] & Hin & Heq); try done. by injection Heq as ->.
  - intros H. by exists (EvOpen p).
Qed.

Lemma traversal_subset fs project_root l :
  l ≠ [] →
  traversal fs project_root (Some l)
  = filter (λ p, FS.isfile fs p = true) (Path.join_unless_abs project_root <$> l).
Proof. intros H. unfold traversal. by destruct l. Qed.

(** C10, as the code has it: with an explicit subset that is not empty
    the extension of a file plays no part: the files scanned are the
    supplied paths that are files, whatever their names, and the findings
    of the scan are those of all of them; so every supplied file is opened
    and each of its findings is in the list.  In a walk (no subset, or an
    empty one) every file opened has a source extension, and every finding
    comes from such a file. *)
Theorem subset_ignores_extensions (project_root : list string) (w : world) :
  (∀ l, l ≠ [] →
     let paths := filter (λ p, FS.isfile (w_fs w) p = true)
                         (Path.join_unless_abs project_root <$> l) in
     (scan_directory project_root (Some l) w).1
       = discovery_order (w_fs w) project_root paths
     ∧ opened (trace_of (scan_directory project_root (Some l)) w) = paths)
  ∧ (∀ l fpath,
       fpath ∈ l →
       FS.isfile (w_fs w) (Path.join_unless_abs project_root fpath) = true →
       EvOpen (Path.join_unless_abs project_root fpath)
         ∈ trace_of (scan_directory project_root (Some l)) w
       ∧ ∀ f, f ∈ discovery_order (w_fs w) project_root
                    [Path.join_unless_abs project_root fpath] →
              f ∈ (scan_directory project_root (Some l) w).1)
  ∧ (∀ target_files,
       truthy target_files = false →
       (∀ p, EvOpen p ∈ trace_of (scan_directory project_root target_files) w →
             ∃ dir name, p = dir ++ [name]
                         ∧ Path.suffix name ∈ SOURCE_EXTENSIONS)
       ∧ (∀ f, f ∈ (scan_directory project_root target_files w).1 →
               ∃ dir name,
                 EvOpen (dir ++ [name])
                   ∈ trace_of (scan_directory project_root target_files) w
                 ∧ Path.suffix name ∈ SOURCE_EXTENSIONS
                 ∧ f ∈ discovery_order (w_fs w) project_root [dir ++ [name]])).
Proof.
  assert (Hsub : ∀ l, l ≠ [] →
            (scan_directory project_root (Some l) w).1
              = discovery_order (w_fs w) project_root
                  (filter (λ p, FS.isfile (w_fs w) p = true)
                          (Path.join_unless_abs project_root <$> l))
            ∧ opened (trace_of (scan_directory project_root (Some l)) w)
              = filter (λ p, FS.isfile (w_fs w) p = true)
                       (Path.join_unless_abs project_root <$> l)).
  { intros l Hl.
    rewrite trace_of_scan_directory, scan_directory_extend. cbn [fst].
    by rewrite opened_dir_events, dir_findings_discovery, traversal_subset. }
  assert (Hwalk : ∀ target_files p,
            truthy target_files = false →
            EvOpen p ∈ trace_of (scan_directory project_root target_files) w →
            ∃ dir name, p = dir ++ [name]
                        ∧ Path.suffix name ∈ SOURCE_EXTENSIONS).
  { intros target_files p Ht Hin. rewrite trace_of_scan_directory in Hin.
    pose proof (walk_mode_events_ok (w_fs w) project_root target_files Ht) as Hok.
    rewrite Forall_forall in Hok.
    apply Hok in Hin as (rel & name & -> & _ & Hext).
    exists (project_root ++ rel), name. by rewrite app_assoc. }
  split; [exact Hsub|]. split.
  - intros l fpath Hin Hfile.
    assert (Hl : l ≠ []) by (intros ->; by apply not_elem_of_nil in Hin).
    destruct (Hsub l Hl) as [Hfind Hopen].
    assert (Hp : Path.join_unless_abs project_root fpath
                 ∈ filter (λ p, FS.isfile (w_fs w) p = true)
                          (Path.join_unless_abs project_root <$> l)).
    { apply list_elem_of_filter. split; [done|].
      apply list_elem_of_fmap. eauto. }
    split.
    + apply elem_of_opened. by rewrite Hopen.
    + intros f Hf. rewrite Hfind. by eapply discovery_order_of.
  - intros target_files Ht. split; [intros p; by apply Hwalk|].
    intros f Hf. rewrite scan_directory_extend in Hf. cbn [fst] in Hf.
    rewrite dir_findings_discovery in Hf.
    apply discovery_order_from in Hf as (p & Hp & Hf).
    rewrite <- opened_dir_events, <- (trace_of_scan_directory _ _ w) in Hp.
    apply elem_of_opened in Hp.
    destruct (Hwalk target_files p Ht Hp) as (dir & name & -> & Hext).
    by exists dir, name.
Qed.

Lemma subset_ignores_extensions_witness :
  Path.suffix "notes.txt" = ".txt" ∧ (".txt" ∉ SOURCE_EXTENSIONS)
  ∧ Path.mk false ["notes.txt"] ∈ Sample.subset
  ∧ FS.isfile (w_fs Sample.w0)
      (Path.join_unless_abs Sample.root (Path.mk false ["notes.txt"])) = true
  ∧ EvOpen ["home"; "proj"; "notes.txt"]
      ∈ trace_of (scan_directory Sample.root (Some Sample.subset)) Sample.w0
  ∧ mkFinding "critical" "Hardcoded Secret" "notes.txt" 1
      "Hardcoded password detected" "password = 'zzz'"
      ∈ (scan_directory Sample.root (Some Sample.subset) Sample.w0).1
  ∧ (EvOpen ["home"; "proj"; "notes.txt"]
       ∉ trace_of (scan_directory Sample.root None) Sample.w0).
Proof.
  pose proof (subset_ignores_extensions Sample.root Sample.w0)
    as (_ & H1 & H2).
  split; [reflexivity|]. split; [by vm_compute|].
  assert (Hin : Path.mk false ["notes.txt"] ∈ Sample.subset) by left.
  split; [exact Hin|]. split; [reflexivity|].
  destruct (H1 Sample.subset (Path.mk false ["notes.txt"]) Hin)
    as [Hopen Hfind]; [reflexivity|].
  split; [exact Hopen|]. split.
  - apply Hfind. vm_compute. left.
  - intros Hno. apply (proj1 (H2 None eq_refl)) in Hno
      as (dir & name & Heq & Hext).
    change ["home"; "proj"; "notes.txt"]
      with (["home"; "proj"] ++ ["notes.txt"]) in Heq.
    apply app_inj_tail in Heq as [_ <-]. revert Hext. by vm_compute.
Defined.

(** C10 as stated fails on the empty subset: with [--files] and no names a
    subset is supplied, yet the scan is the walk and the source extensions
    decide what is scanned.  Of the files of the root directory, [a.py] is
    opened and [notes.txt], whose line would give a finding, is not. *)
Lemma empty_subset_applies_extensions :
  let tr := trace_of (scan_directory Sample.root (Some [])) Sample.w0 in
  scan_directory Sample.root (Some []) Sample.w0
    = scan_directory Sample.root None Sample.w0
  ∧ opened tr
    = [["home"; "proj"; "a.py"]; ["home"; "proj"; "secret.py"];
       ["home"; "proj"; "z.rb"]; ["home"; "proj"; "src"; "db.ts"]]
  ∧ FS.isfile Sample.tree ["home"; "proj"; "notes.txt"] = true
  ∧ (Path.suffix "notes.txt" ∉ SOURCE_EXTENSIONS)
  ∧ length (discovery_order Sample.tree Sample.root
              [["home"; "proj"; "notes.txt"]]) = 1
  ∧ ¬ (∀ name,
         FS.isfile Sample.tree (Sample.root ++ [name]) = true →
         (EvOpen (Sample.root ++ [name]) ∈ tr
          ↔ EvOpen (Sample.root ++ ["a.py"]) ∈ tr)).
Proof.
  assert (H : opened (trace_of (scan_directory Sample.root (Some []))
                        Sample.w0)
              = [["home"; "proj"; "a.py"]; ["home"; "proj"; "secret.py"];
                 ["home"; "proj"; "z.rb"]; ["home"; "proj"; "src"; "db.ts"]])
    by (vm_compute; reflexivity).
  cbv zeta. split; [reflexivity|]. split; [exact H|].
  split; [reflexivity|]. split; [by vm_compute|].
  split; [vm_compute; reflexivity|].
  intros Hall. specialize (Hall "notes.txt" eq_refl) as [_ Hall].
  rewrite <- !elem_of_opened, H in Hall.
  assert (Ha : Sample.root ++ ["a.py"]
               ∈ [["home"; "proj"; "a.py"]; ["home"; "proj"; "secret.py"];
                  ["home"; "proj"; "z.rb"]; ["home"; "proj"; "src"; "db.ts"]])
    by left.
  specialize (Hall Ha). apply list_elem_of_In in Hall. vm_compute in Hall.
  intuition discriminate.
Qed.

(** * Further properties of the report and of the summary *)

Lemma rank_cases s :
  (s = "critical" ∧ rank s = 0) ∨ (s = "high" ∧ rank s = 1)
  ∨ (s = "medium" ∧ rank s = 2)
  ∨ (s ≠ "critical" ∧ s ≠ "high" ∧ s ≠ "medium" ∧ rank s = 3).
Proof.
  unfold rank, SEVERITY_RANK.
  destruct (decide (s = "critical")) as [->|H1]; [by left|].
  destruct (decide (s = "high")) as [->|H2]; [by right; left|].
  destruct (decide (s = "medium")) as [->|H3]; [by right; right; left|].
  right; right; right. repeat split; try done.
  rewrite !lookup_insert_ne by done.
  destruct (decide (s = "low")) as [->|H4]; [done|].
  by rewrite lookup_singleton_ne.
Qed.

Lemma rank_le_3 s : rank s ≤ 3.
Proof. destruct (rank_cases s) as [[_ ->]|[[_ ->]|[[_ ->]|(_ & _ & _ & ->)]]]; lia. Qed.

Lemma rank_0 s : rank s = 0 ↔ s = "critical".
Proof.
  destruct (rank_cases s) as [[-> H]|[[-> H]|[[-> H]|(? & _ & _ & H)]]];
    rewrite H; split; done.
Qed.

Lemma length_filtered findings s :
  length (filtered findings s)
  = length (filter (λ f, rank (severity f) ≤ rank s) findings).
Proof. unfold filtered. by rewrite sort_by_Permutation. Qed.

(** X1: [print_findings] returns the number of findings it displays, which
    is the number of findings at or above the floor; it returns 0 exactly
    when it prints the single line saying that nothing was found, which is
    exactly when every finding lies below the floor. *)
Theorem print_findings_count
    (findings : list Finding) (min_severity : string) (w : world) :
  let tr := trace_of (print_findings findings min_severity) w in
  let count := (print_findings findings min_severity w).1 in
  count = length (filter (λ f, rank (severity f) ≤ rank min_severity) findings)
  ∧ count = length (shown tr)
  ∧ (count = 0 ↔ tr = [EvPrint (OutNoIssues min_severity)])
  ∧ (count = 0 ↔ ∀ f, f ∈ findings → rank min_severity < rank (severity f)).
Proof.
  cbv zeta. rewrite trace_of_print_findings, print_findings_extend.
  cbn [fst]. rewrite shown_report_events.
  split; [apply length_filtered|]. split; [done|]. split.
  - unfold report_events.
    destruct (filtered findings min_severity) as [|f l] eqn:E; [done|].
    split; [done|]. simpl. destruct (negb _); simpl; [done|].
    intros [=].
  - rewrite length_zero_iff_nil. split.
    + intros E f Hf.
      destruct (decide (rank (severity f) ≤ rank min_severity)) as [Hle|]; [|lia].
      assert (f ∈ filtered findings min_severity) by by apply elem_of_filtered.
      rewrite E in *. by apply not_elem_of_nil in H.
    + intros H. destruct (filtered findings min_severity) as [|f l] eqn:E; [done|].
      assert (Hf : f ∈ filtered findings min_severity) by (rewrite E; left).
      apply elem_of_filtered in Hf as [Hf Hle]. specialize (H f Hf). lia.
Qed.

(** X2: the findings are displayed by severity, most severe first, and
    findings of the same severity keep the order in which they were found;
    below the floor nothing is displayed. *)
Theorem report_sorted_stable
    (findings : list Finding) (min_severity : string) (w : world) :
  let displayed := shown (trace_of (print_findings findings min_severity) w) in
  StronglySorted (λ a b, rank (severity a) ≤ rank (severity b)) displayed
  ∧ ∀ k, filter (λ f, rank (severity f) = k) displayed
         = if decide (k ≤ rank min_severity)
           then filter (λ f, rank (severity f) = k) findings else [].
Proof.
  cbv zeta. rewrite trace_of_print_findings, shown_report_events.
  unfold filtered. split; [apply (sort_by_sorted finding_rank)|].
  intros k. rewrite (sort_by_stable finding_rank k).
  rewrite list_filter_filter. unfold finding_rank.
  case_decide as Hk.
  - apply list_filter_iff. intros f. lia.
  - induction findings as [|f l IH]; [done|]. rewrite filter_cons, IH.
    rewrite decide_False; [done | lia].
Qed.

Lemma headers_app t1 t2 : headers (t1 ++ t2) = headers t1 ++ headers t2.
Proof. apply omap_app. Qed.

Lemma default_last_cons (cur c : string) hs :
  default cur (last (c :: hs)) = default c (last hs).
Proof. rewrite last_cons. by destruct (last hs). Qed.

Lemma loop_events_headed l : ∀ cur pre f post,
  loop_events cur l = pre ++ EvPrint (OutFinding f) :: post →
  default cur (last (headers pre)) = category f.
Proof.
  induction l as [|g l IH]; intros cur pre f post; simpl.
  - by destruct pre.
  - destruct (String.eqb_spec (category g) cur) as [Heq|Hne]; simpl.
    + destruct pre as [|e pre]; simpl.
      * by intros [= <- _].
      * intros [= <- Hrest]. simpl. rewrite <- Heq. by apply (IH _ _ _ _ Hrest).
    + destruct pre as [|e pre]; [done|]. simpl. intros [= <- Hrest].
      destruct pre as [|e' pre]; simpl in *.
      * by injection Hrest as <- _.
      * injection Hrest as <- Hrest. cbn [headers omap].
        change (omap _ pre) with (headers pre).
        rewrite default_last_cons. by apply (IH _ _ _ _ Hrest).
Qed.

Lemma loop_events_no_repeat l : ∀ cur h1 h2 pre post,
  cur :: headers (loop_events cur l) = pre ++ h1 :: h2 :: post → h1 ≠ h2.
Proof.
  induction l as [|g l IH]; intros cur h1 h2 pre post; simpl.
  - destruct pre as [|? [|? ?]]; done.
  - destruct (String.eqb_spec (category g) cur) as [Heq|Hne]; simpl.
    + rewrite Heq. apply IH.
    + destruct pre as [|x pre]; simpl.
      * intros [= <- <- _]. congruence.
      * intros [= <- Hrest]. by apply (IH _ _ _ _ _ Hrest).
Qed.

(** X3: in the report every finding stands under the header of its own
    category: the last header printed before it names its category (before
    any header the current category is the empty string); and a header is
    not printed again while the category stays the same, so neighbouring
    findings of one category share one header. *)
Theorem findings_under_their_header
    (findings : list Finding) (min_severity : string) (w : world) :
  let tr := trace_of (print_findings findings min_severity) w in
  (∀ pre f post,
     tr = pre ++ EvPrint (OutFinding f) :: post →
     default "" (last (headers pre)) = category f)
  ∧ (∀ pre h1 h2 post, "" :: headers tr = pre ++ h1 :: h2 :: post → h1 ≠ h2).
Proof.
  cbv zeta. rewrite trace_of_print_findings. unfold report_events.
  destruct (filtered findings min_severity) as [|g l] eqn:E.
  - split.
    + intros [|? [|? ?]] f post; done.
    + intros [|? [|? ?]] h1 h2 post; done.
  - split.
    + apply loop_events_headed.
    + intros pre h1 h2 post. apply loop_events_no_repeat.
Qed.

(** X4: at the floor [low], which is the default, and at any floor that is
    not one of the four levels, every finding is displayed; at the floor
    [critical] exactly the findings of severity critical are. *)
Theorem floor_low_shows_all
    (findings : list Finding) (min_severity : string) (w : world) :
  let displayed := shown (trace_of (print_findings findings min_severity) w) in
  ((min_severity = "low" ∨ SEVERITY_RANK !! min_severity = None) →
     displayed ≡ₚ findings)
  ∧ (min_severity = "critical" →
     ∀ f, f ∈ displayed ↔ f ∈ findings ∧ severity f = "critical").
Proof.
  cbv zeta. rewrite trace_of_print_findings, shown_report_events. split.
  - intros H. assert (Hr : rank min_severity = 3).
    { destruct H as [->|H]; [done|]. unfold rank. by rewrite H. }
    unfold filtered. rewrite sort_by_Permutation, Hr.
    induction findings as [|f l IH]; [done|]. rewrite filter_cons.
    rewrite decide_True by apply rank_le_3. by rewrite IH.
  - intros -> f. rewrite elem_of_filtered.
    change (rank "critical") with 0. rewrite <- rank_0.
    split; intros [? ?]; (split; [done | lia]).
Qed.

Lemma floor_low_shows_all_witness :
  ("bogus" = "low" ∨ SEVERITY_RANK !! "bogus" = None)
  ∧ length (shown (trace_of
              (print_findings (scan_directory Sample.root None Sample.w0).1
                 "bogus") Sample.w0)) = 5.
Proof.
  assert (H : "bogus" = "low" ∨ SEVERITY_RANK !! "bogus" = None)
    by (right; reflexivity).
  split; [exact H|].
  rewrite (proj1 (floor_low_shows_all
                    (scan_directory Sample.root None Sample.w0).1 "bogus"
                    Sample.w0) H).
  vm_compute. reflexivity.
Defined.

(** ** Findings are well formed *)

Lemma patterns_severities :
  ∀ r : Catalog.rule, r ∈ PATTERNS →
    r.1.1.2 ∈ ["critical"; "high"; "medium"; "low"].
Proof.
  assert (H : forallb (λ r : Catalog.rule,
                bool_decide (r.1.1.2 ∈ ["critical"; "high"; "medium"; "low"]))
                PATTERNS = true) by (vm_compute; reflexivity).
  intros r Hr. rewrite forallb_forall in H.
  apply list_elem_of_In, H in Hr. by apply bool_decide_eq_true in Hr.
Qed.

Lemma scan_line_not_comment f rel n ln :
  f ∈ scan_line rel n ln → is_comment (Str.strip ln) = false.
Proof.
  unfold scan_line. destruct (is_comment _); [|done].
  by intros ?%not_elem_of_nil.
Qed.

Lemma file_findings_wellformed fs project_root filepath f :
  f ∈ file_findings fs project_root filepath →
  ∃ lines ln r,
    FS.read fs filepath = Some lines
    ∧ file f = Path.relpath filepath project_root
    ∧ 1 ≤ line f ≤ length lines
    ∧ lines !! (line f - 1) = Some ln
    ∧ is_comment (Str.strip ln) = false
    ∧ r ∈ PATTERNS
    ∧ Re.search r.1.1.1 (Str.strip ln) = true
    ∧ (severity f, category f, message f) = (r.1.1.2, r.1.2, r.2)
    ∧ severity f ∈ ["critical"; "high"; "medium"; "low"].
Proof.
  unfold file_findings.
  destruct (FS.read fs filepath) as [lines|] eqn:Hread;
    [|by intros ?%not_elem_of_nil].
  intros (i & ln & Hi & Hf)%elem_of_scan_lines.
  pose proof (scan_line_not_comment _ _ _ _ Hf) as Hc.
  apply elem_of_scan_line in Hf as (Hline & Hfile & _ & r & Hr & ->).
  apply list_elem_of_filter in Hr as [Hs Hr].
  pose proof (lookup_lt_Some _ _ _ Hi) as Hlt.
  exists lines, ln, r.
  destruct r as [[[pat sev] cat] msg]. simpl in *.
  repeat split; try done; try lia.
  - by rewrite Nat.sub_0_r.
  - by apply (patterns_severities (pat, sev, cat, msg)).
Qed.

(** X5: every finding [scan_file] returns describes a line of the file it
    read: its line number is between 1 and the number of lines, that line is
    not a comment, its severity, category and message are those of a catalog
    rule whose pattern matches the stripped line, its severity is one of the
    four levels, and its file is the path relative to the project root. *)
Theorem scan_file_findings_wellformed
    (filepath project_root : list string) (w : world) (f : Finding) :
  f ∈ (scan_file filepath project_root w).1 →
  ∃ lines ln r,
    FS.read (w_fs w) filepath = Some lines
    ∧ file f = Path.relpath filepath project_root
    ∧ 1 ≤ line f ≤ length lines
    ∧ lines !! (line f - 1) = Some ln
    ∧ is_comment (Str.strip ln) = false
    ∧ r ∈ PATTERNS
    ∧ Re.search r.1.1.1 (Str.strip ln) = true
    ∧ (severity f, category f, message f) = (r.1.1.2, r.1.2, r.2)
    ∧ severity f ∈ ["critical"; "high"; "medium"; "low"].
Proof.
  rewrite scan_file_extend. apply file_findings_wellformed.
Qed.

Lemma scan_file_findings_wellformed_witness :
  ∃ f, f ∈ (scan_file ["home"; "proj"; "src"; "db.ts"] Sample.root Sample.w0).1
       ∧ file f = "src/db.ts" ∧ line f = 2 ∧ severity f = "low".
Proof.
  exists (mkFinding "low" "Weak Randomness" "src/db.ts" 2
    "Math.random() is not cryptographically secure — use crypto.randomBytes()"
    "Math.random()").
  assert (H : mkFinding "low" "Weak Randomness" "src/db.ts" 2
    "Math.random() is not cryptographically secure — use crypto.randomBytes()"
    "Math.random()"
    ∈ (scan_file ["home"; "proj"; "src"; "db.ts"] Sample.root Sample.w0).1)
    by (vm_compute; right; left).
  split; [exact H|].
  destruct (scan_file_findings_wellformed _ _ _ _ H)
    as (lines & ln & r & _ & Hfile & _).
  split; [exact Hfile|]. split; reflexivity.
Defined.

Lemma dir_findings_severity fs project_root target_files f :
  f ∈ dir_findings fs project_root target_files →
  severity f ∈ ["critical"; "high"; "medium"; "low"].
Proof.
  unfold dir_findings. intros (p & Hf & _)%list_elem_of_bind.
  destruct (file_findings_wellformed _ _ _ _ Hf) as (? & ? & ? & H'). tauto.
Qed.

(** ** The run as a whole *)

Lemma prints_app t1 t2 : prints (t1 ++ t2) = prints t1 ++ prints t2.
Proof. apply omap_app. Qed.

Lemma elem_of_prints o tr : o ∈ prints tr ↔ EvPrint o ∈ tr.
Proof.
  unfold prints. rewrite list_elem_of_omap. split.
  - intros (e & He & Ho). destruct e; try done. by injection Ho as ->.
  - intros H. by exists (EvPrint o).
Qed.

Lemma totals_prints tr :
  totals tr = omap (λ o, match o with
                         | OutSeverityCount sev c => Some (sev, c)
                         | _ => None
                         end) (prints tr).
Proof.
  induction tr as [|e tr IH]; [done|].
  destruct e as [p|p|o]; simpl; try done. destruct o; simpl; by rewrite ?IH.
Qed.

Lemma shown_prints tr :
  shown tr = omap (λ o, match o with OutFinding f => Some f | _ => None end)
                  (prints tr).
Proof.
  induction tr as [|e tr IH]; [done|].
  destruct e as [p|p|o]; simpl; try done. destruct o; simpl; by rewrite ?IH.
Qed.

Lemma prints_dir_events fs project_root target_files :
  prints (dir_events fs project_root target_files) = [].
Proof.
  unfold dir_events. destruct (truthy target_files) eqn:Ht.
  - generalize (subset_paths fs project_root (default [] target_files)).
    intros l. by induction l.
  - pose proof (walk_mode_events_ok fs project_root target_files Ht) as Hok.
    unfold dir_events in Hok. rewrite Ht in Hok.
    induction Hok as [|e tr He _ IH]; [done|].
    destruct e; simpl in *; try done.
Qed.

Lemma opened_prints_only tr :
  Forall (λ e, ∃ o, e = EvPrint o) tr → opened tr = [] ∧ listed tr = [].
Proof.
  induction 1 as [|e tr [o ->] _ [IH1 IH2]]; [done|]. simpl. by rewrite IH1, IH2.
Qed.

Lemma loop_events_prints l : ∀ cur,
  Forall (λ e, ∃ o, e = EvPrint o) (loop_events cur l).
Proof.
  induction l as [|f l IH]; intros cur; simpl; [done|].
  apply Forall_app. split.
  - destruct (negb _); repeat constructor. eauto.
  - constructor; [eauto | apply IH].
Qed.

Lemma report_events_prints findings s :
  Forall (λ e, ∃ o, e = EvPrint o) (report_events findings s).
Proof.
  unfold report_events. destruct (filtered findings s).
  - repeat constructor. eauto.
  - apply loop_events_prints.
Qed.

Lemma summary_events_prints findings count :
  Forall (λ e, ∃ o, e = EvPrint o) (summary_events findings count).
Proof.
  unfold summary_events. constructor; [eauto|]. apply Forall_app. split.
  - apply Forall_bind, Forall_forall. intros sev _. simpl.
    destruct (0 <? _); repeat constructor. eauto.
  - destruct (count =? 0); [repeat constructor; eauto|].
    destruct (0 <? _); repeat constructor. eauto.
Qed.

Lemma get0_tally_count findings sev :
  get0 (tally findings) sev = count_of sev findings.
Proof. apply get0_tally. Qed.

Lemma prints_counts (g : string → nat) (sevs : list string) :
  prints (sevs ≫= λ sev, if 0 <? g sev
                         then [EvPrint (OutSeverityCount sev (g sev))] else [])
  = (λ sc, OutSeverityCount sc.1 sc.2) <$>
      filter (λ sc, 0 < sc.2) ((λ sev, (sev, g sev)) <$> sevs).
Proof.
  induction sevs as [|sev sevs IH]; [done|].
  rewrite bind_cons, prints_app, IH, fmap_cons, filter_cons. cbn [snd].
  destruct (Nat.ltb_spec 0 (g sev)).
  - by rewrite decide_True.
  - by rewrite decide_False by lia.
Qed.

Lemma prints_summary_events findings count :
  prints (summary_events findings count)
  = OutSummaryHeader ::
    ((λ sc, OutSeverityCount sc.1 sc.2) <$>
       filter (λ sc, 0 < sc.2)
         ((λ sev, (sev, count_of sev findings)) <$>
            ["critical"; "high"; "medium"; "low"])) ++
    (if count =? 0 then [OutPassed]
     else if 0 <? count_of "critical" findings + count_of "high" findings
          then [OutAttention
                  (count_of "critical" findings + count_of "high" findings)]
          else []).
Proof.
  unfold summary_events.
  change (EvPrint OutSummaryHeader :: ?l) with ([EvPrint OutSummaryHeader] ++ l).
  rewrite !prints_app. cbn [prints omap app]. f_equal.
  change (omap _ ?t) with (prints t).
  rewrite (prints_counts (get0 (tally findings))). f_equal.
  - do 2 f_equal. apply list_fmap_ext. intros _ sev _.
    by rewrite get0_tally_count.
  - rewrite !get0_tally_count. destruct (count =? 0); [done|].
    by destruct (0 <? _).
Qed.

Lemma prints_report_events findings s :
  ∀ o, o ∈ prints (report_events findings s) →
       o = OutNoIssues s ∨ (∃ c, o = OutCategory c) ∨ (∃ f, o = OutFinding f).
Proof.
  intros o. unfold report_events.
  destruct (filtered findings s) as [|g l].
  - simpl. intros ->%list_elem_of_singleton. by left.
  - generalize (g :: l) "". intros l'. induction l' as [|f l' IH]; intros cur.
    + by intros ?%not_elem_of_nil.
    + simpl. rewrite prints_app. rewrite elem_of_app. intros [H|H].
      * destruct (negb _); simpl in H; [|by apply not_elem_of_nil in H].
        apply list_elem_of_singleton in H as ->. right; left; eauto.
      * simpl in H. apply elem_of_cons in H as [->|H]; [right; right; eauto|].
        by apply (IH (category f)).
Qed.

Lemma prints_main_events fs cwd a :
  FS.isdir fs (Path.abspath cwd (a_path a)) = true →
  let project_root := Path.abspath cwd (a_path a) in
  let findings := dir_findings fs project_root (a_files a) in
  prints (main_events fs cwd a)
  = [OutBanner; OutProject project_root; OutSeverityFilter (a_severity a)]
    ++ prints (report_events findings (a_severity a))
    ++ prints (summary_events findings
                 (length (filtered findings (a_severity a)))).
Proof.
  intros H. cbv zeta. unfold main_events. rewrite H.
  rewrite !prints_app, prints_dir_events. done.
Qed.

Lemma omap_none {A B} (g : A → option B) (l : list A) :
  (∀ x, x ∈ l → g x = None) → omap g l = [].
Proof.
  induction l as [|x l IH]; intros H; [done|]. simpl.
  rewrite (H x) by left. apply IH. intros y Hy. apply H. by right.
Qed.

Lemma count_of_sum findings :
  (∀ f, f ∈ findings → severity f ∈ ["critical"; "high"; "medium"; "low"]) →
  count_of "critical" findings + count_of "high" findings
  + count_of "medium" findings + count_of "low" findings = length findings.
Proof.
  unfold count_of. induction findings as [|f l IH]; intros H; [done|].
  rewrite !filter_cons. simpl length.
  rewrite <- IH by (intros g Hg; apply H; by right).
  assert (Hf : severity f ∈ ["critical"; "high"; "medium"; "low"])
    by (apply H; left).
  repeat (apply elem_of_cons in Hf as [->|Hf]); [..|by apply not_elem_of_nil in Hf];
    repeat (case_decide; try done); simpl; lia.
Qed.

Lemma totals_main_events fs cwd a :
  FS.isdir fs (Path.abspath cwd (a_path a)) = true →
  totals (main_events fs cwd a)
  = filter (λ sc, 0 < sc.2)
      ((λ sev, (sev, count_of sev
                       (dir_findings fs (Path.abspath cwd (a_path a)) (a_files a))))
         <$> ["critical"; "high"; "medium"; "low"]).
Proof.
  intros H. rewrite totals_prints, (prints_main_events _ _ _ H).
  rewrite !omap_app. cbn [omap list_omap app].
  rewrite omap_none.
  2:{ intros o [->|[[c ->]|[f ->]]]%prints_report_events; done. }
  rewrite prints_summary_events. cbn [omap list_omap app]. rewrite omap_app.
  rewrite (omap_none _ (if _ =? 0 then _ else _)).
  2:{ intros o. destruct (_ =? 0); [|destruct (0 <? _)].
      - by intros ->%list_elem_of_singleton.
      - by intros ->%list_elem_of_singleton.
      - by intros ?%not_elem_of_nil. }
  rewrite app_nil_r. generalize (filter (λ sc : string * nat, 0 < sc.2)
    ((λ sev, (sev, count_of sev
       (dir_findings fs (Path.abspath cwd (a_path a)) (a_files a))))
       <$> ["critical"; "high"; "medium"; "low"])).
  intros l. induction l as [|[s c] l IH]; [done|].
  rewrite fmap_cons. cbn [omap list_omap fst snd]. by f_equal.
Qed.

(** X6: after a scan the summary prints, in the order critical, high,
    medium, low, the number of findings of each severity that has at least
    one, counted over all the findings whatever the display floor; and the
    four numbers add up to the number of findings. *)
Theorem summary_totals (a : args) (w : world) :
  FS.isdir (w_fs w) (Path.abspath (w_cwd w) (a_path a)) = true →
  let findings :=
    (scan_directory (Path.abspath (w_cwd w) (a_path a)) (a_files a) w).1 in
  totals (trace_of (main a) w)
  = filter (λ sc, 0 < sc.2)
      ((λ sev, (sev, count_of sev findings))
         <$> ["critical"; "high"; "medium"; "low"])
  ∧ count_of "critical" findings + count_of "high" findings
    + count_of "medium" findings + count_of "low" findings = length findings.
Proof.
  intros Hdir. cbv zeta. rewrite trace_of_main, scan_directory_extend.
  cbn [fst]. split; [by apply totals_main_events|].
  apply count_of_sum. intros f. apply dir_findings_severity.
Qed.

Lemma summary_totals_witness :
  FS.isdir (w_fs Sample.w0)
    (Path.abspath (w_cwd Sample.w0) (a_path (mkArgs Sample.here "critical" None)))
    = true
  ∧ totals (trace_of (main (mkArgs Sample.here "critical" None)) Sample.w0)
    = [("critical", 1); ("high", 3); ("low", 1)].
Proof.
  split; [reflexivity|].
  destruct (summary_totals (mkArgs Sample.here "critical" None) Sample.w0)
    as [-> _]; [reflexivity|].
  vm_compute. reflexivity.
Defined.

Lemma shown_main_events fs cwd a :
  FS.isdir fs (Path.abspath cwd (a_path a)) = true →
  shown (main_events fs cwd a)
  = filtered (dir_findings fs (Path.abspath cwd (a_path a)) (a_files a))
      (a_severity a).
Proof.
  intros H. rewrite shown_prints, (prints_main_events _ _ _ H).
  rewrite !omap_app. cbn [omap list_omap app]. rewrite <- shown_prints.
  rewrite shown_report_events, omap_none; [by rewrite app_nil_r|].
  intros o. rewrite prints_summary_events.
  intros [->|[(x & -> & _)%list_elem_of_fmap|H']%elem_of_app]%elem_of_cons;
    [done..|].
  destruct (_ =? 0); [|destruct (0 <? _)].
  - by apply list_elem_of_singleton in H' as ->.
  - by apply list_elem_of_singleton in H' as ->.
  - by apply not_elem_of_nil in H'.
Qed.

Lemma elem_of_prints_summary o findings n :
  o ∈ prints (summary_events findings n) ↔
  o = OutSummaryHeader
  ∨ (∃ sev, sev ∈ ["critical"; "high"; "medium"; "low"]
            ∧ 0 < count_of sev findings
            ∧ o = OutSeverityCount sev (count_of sev findings))
  ∨ (n = 0 ∧ o = OutPassed)
  ∨ (n ≠ 0
     ∧ 0 < count_of "critical" findings + count_of "high" findings
     ∧ o = OutAttention
             (count_of "critical" findings + count_of "high" findings)).
Proof.
  rewrite prints_summary_events, elem_of_cons, elem_of_app.
  apply or_iff_compat_l. split.
  - intros [H|H].
    + apply list_elem_of_fmap in H as ([sev c] & -> & H).
      apply list_elem_of_filter in H as [Hpos H]. simpl in Hpos.
      apply list_elem_of_fmap in H as (sev' & [= -> ->] & Hin). left. eauto.
    + right. destruct n as [|n]; cbn [Nat.eqb] in H.
      * apply list_elem_of_singleton in H. by left.
      * destruct (Nat.ltb_spec 0 (count_of "critical" findings
                                  + count_of "high" findings)).
        -- apply list_elem_of_singleton in H. by right.
        -- by apply not_elem_of_nil in H.
  - intros [(sev & Hin & Hpos & ->)|[[-> ->]|(Hne & Hpos & ->)]].
    + left. apply list_elem_of_fmap. exists (sev, count_of sev findings).
      split; [done|]. apply list_elem_of_filter. split; [done|].
      apply list_elem_of_fmap. eauto.
    + right. left.
    + right. destruct n as [|n]; [done|]. cbn [Nat.eqb].
      rewrite (proj2 (Nat.ltb_lt _ _)) by done. left.
Qed.

Lemma passed_in_main_events fs cwd a :
  FS.isdir fs (Path.abspath cwd (a_path a)) = true →
  EvPrint OutPassed ∈ main_events fs cwd a ↔
  filtered (dir_findings fs (Path.abspath cwd (a_path a)) (a_files a))
    (a_severity a) = [].
Proof.
  intros H. rewrite <- elem_of_prints, (prints_main_events _ _ _ H).
  rewrite !elem_of_app, elem_of_prints_summary, <- length_zero_iff_nil.
  split.
  - intros [H'|[H'|[H'|[(? & _ & _ & H')|[[H' _]|(_ & _ & H')]]]]]; try done.
    + repeat (apply elem_of_cons in H' as [H'|H']; [done|]).
      by apply not_elem_of_nil in H'.
    + by apply prints_report_events in H' as [?|[[? ?]|[? ?]]].
  - intros E. right; right. right; right; left. done.
Qed.

Lemma critical_in_filtered findings s :
  0 < count_of "critical" findings → filtered findings s ≠ [].
Proof.
  unfold count_of. intros Hc E.
  destruct (filter (λ f, severity f = "critical") findings) as [|f l] eqn:Ef;
    [simpl in Hc; lia|].
  assert (Hf : f ∈ filter (λ f, severity f = "critical") findings)
    by (rewrite Ef; left).
  apply list_elem_of_filter in Hf as [Hsev Hf].
  assert (f ∈ filtered findings s).
  { apply elem_of_filtered. split; [done|]. rewrite Hsev.
    change (rank "critical") with 0. lia. }
  rewrite E in *. by apply not_elem_of_nil in H.
Qed.

(** X7: after a scan, the line saying that the scan passed is printed
    exactly when no finding is displayed, and then the exit status is 0; when
    the exit status is not 0 that line is not printed, and the line asking
    for attention is, with the number of critical and high findings. *)
Theorem passed_only_when_clean (a : args) (w : world) :
  FS.isdir (w_fs w) (Path.abspath (w_cwd w) (a_path a)) = true →
  let findings :=
    (scan_directory (Path.abspath (w_cwd w) (a_path a)) (a_files a) w).1 in
  let tr := trace_of (main a) w in
  (EvPrint OutPassed ∈ tr ↔ shown tr = [])
  ∧ (EvPrint OutPassed ∈ tr → (main a w).1 = 0)
  ∧ ((main a w).1 ≠ 0 →
     (EvPrint OutPassed ∉ tr)
     ∧ EvPrint (OutAttention
                  (count_of "critical" findings + count_of "high" findings))
       ∈ tr).
Proof.
  intros Hdir. cbv zeta.
  rewrite trace_of_main, main_extend, scan_directory_extend. cbn [fst].
  rewrite (passed_in_main_events _ _ _ Hdir), (shown_main_events _ _ _ Hdir).
  unfold main_status. rewrite Hdir.
  set (findings := dir_findings _ _ _).
  assert (Hexit : exit_status findings ≠ 0 → 0 < count_of "critical" findings).
  { unfold exit_status. rewrite get0_tally_count.
    destruct (Nat.ltb_spec 0 (count_of "critical" findings)); done. }
  split; [done|]. split.
  - intros E. destruct (decide (exit_status findings = 0)) as [|Hne]; [done|].
    by destruct (critical_in_filtered findings (a_severity a) (Hexit Hne)).
  - intros Hne. pose proof (Hexit Hne) as Hc.
    pose proof (critical_in_filtered findings (a_severity a) Hc) as Hnil.
    split; [done|].
    apply elem_of_prints. rewrite (prints_main_events _ _ _ Hdir).
    fold findings. rewrite !elem_of_app, elem_of_prints_summary.
    right; right. right; right; right.
    rewrite length_zero_iff_nil. split; [done|]. split; [lia|done].
Qed.

Lemma passed_only_when_clean_witness :
  FS.isdir (w_fs Sample.w0)
    (Path.abspath (w_cwd Sample.w0) (a_path Sample.args_low)) = true
  ∧ (main Sample.args_low Sample.w0).1 ≠ 0
  ∧ EvPrint (OutAttention 4) ∈ trace_of (main Sample.args_low) Sample.w0.
Proof.
  assert (Hne : (main Sample.args_low Sample.w0).1 ≠ 0) by (by vm_compute).
  split; [reflexivity|]. split; [exact Hne|].
  destruct (passed_only_when_clean Sample.args_low Sample.w0) as (_ & _ & H);
    [reflexivity|].
  exact (proj2 (H Hne)).
Defined.

(** X8: a run prints its three heading lines, then scans without printing
    anything, then prints the report and the summary without listing a
    directory or opening a file any more: no finding is printed before the
    scan is complete. *)
Theorem scan_precedes_report (a : args) (w : world) :
  FS.isdir (w_fs w) (Path.abspath (w_cwd w) (a_path a)) = true →
  let project_root := Path.abspath (w_cwd w) (a_path a) in
  let scan := trace_of (scan_directory project_root (a_files a)) w in
  ∃ rest,
    trace_of (main a) w
    = [EvPrint OutBanner; EvPrint (OutProject project_root);
       EvPrint (OutSeverityFilter (a_severity a))] ++ scan ++ rest
    ∧ prints scan = []
    ∧ opened rest = [] ∧ listed rest = [].
Proof.
  intros Hdir. cbv zeta.
  rewrite trace_of_main, trace_of_scan_directory. unfold main_events.
  rewrite Hdir. eexists. split; [reflexivity|].
  split; [apply prints_dir_events|].
  apply opened_prints_only, Forall_app.
  split; [apply report_events_prints | apply summary_events_prints].
Qed.

Lemma scan_precedes_report_witness :
  FS.isdir (w_fs Sample.w0)
    (Path.abspath (w_cwd Sample.w0) (a_path Sample.args_low)) = true
  ∧ ∃ rest,
      trace_of (main Sample.args_low) Sample.w0
      = [EvPrint OutBanner; EvPrint (OutProject ["home"; "proj"]);
         EvPrint (OutSeverityFilter "low")]
        ++ trace_of (scan_directory ["home"; "proj"] None) Sample.w0 ++ rest
      ∧ prints (trace_of (scan_directory ["home"; "proj"] None) Sample.w0) = []
      ∧ opened rest = [] ∧ listed rest = [].
Proof.
  split; [reflexivity|].
  apply (scan_precedes_report Sample.args_low Sample.w0). reflexivity.
Defined.

(** ** The walk misses no source file *)

Lemma child_elem_of d es n : FS.child d es = Some n → (d, n) ∈ es.
Proof.
  induction es as [|[x m] es IH]; simpl; [done|].
  destruct (String.eqb_spec x d) as [->|Hne].
  - intros [= ->]. left.
  - intros H. right. by apply IH.
Qed.

Lemma dir_at_is_dir n rel es : FS.dir_at n rel = Some es → FS.is_dir n = true.
Proof. destruct n, rel; simpl; done. Qed.

Lemma walk_events_complete fs rel : ∀ n top es,
  Forall (λ d, d ∉ SKIP_DIRS) rel →
  FS.dir_at n rel = Some es →
  EvScandir (top ++ rel) ∈ walk_events fs top n
  ∧ ∀ name sub,
      (name, sub) ∈ es → FS.entry_is_dir fs sub = false →
      Path.suffix name ∈ SOURCE_EXTENSIONS →
      EvOpen (top ++ rel ++ [name]) ∈ walk_events fs top n.
Proof.
  induction rel as [|d rel IH]; intros n top es Hrel Hat.
  - destruct n as [c|es0|es0|target]; try done.
    simpl in Hat. injection Hat as ->. simpl. rewrite app_nil_r.
    split; [left|]. intros name sub Hin Hdir Hext. right.
    apply elem_of_app. left. apply list_elem_of_fmap. eexists. split; [done|].
    unfold dir_files. apply list_elem_of_fmap. exists name. split; [done|].
    apply list_elem_of_filter. split; [done|].
    unfold FS.filenames. apply list_elem_of_fmap. exists (name, sub).
    split; [done|]. by apply list_elem_of_filter.
  - destruct n as [c|es0|es0|target]; try done. simpl in Hat.
    destruct (FS.child d es0) as [n'|] eqn:Hchild; [|done]. simpl in Hat.
    apply Forall_cons in Hrel as [Hd Hrel].
    destruct (IH n' (top ++ [d]) es Hrel Hat) as [Hscan Hopen].
    assert (Hsub : ∀ e, e ∈ walk_events fs (top ++ [d]) n' →
                        e ∈ walk_events fs top (FS.Dir es0)).
    { intros e He. simpl. right. apply elem_of_app. right.
      apply list_elem_of_bind. exists (d, n'). split; [|by apply child_elem_of].
      rewrite (dir_at_is_dir _ _ _ Hat). simpl. by rewrite bool_decide_eq_true_2. }
    split.
    + apply Hsub. by rewrite <- app_assoc in Hscan.
    + intros name sub Hin Hdir Hext. apply Hsub.
      specialize (Hopen name sub Hin Hdir Hext). by rewrite <- app_assoc in Hopen.
Qed.

Lemma file_findings_in_dir_findings fs project_root target_files p f :
  EvOpen p ∈ dir_events fs project_root target_files →
  f ∈ file_findings fs project_root p →
  f ∈ dir_findings fs project_root target_files.
Proof.
  intros Hp Hf. unfold dir_findings. apply list_elem_of_bind. exists p.
  split; [done|]. unfold opened. apply list_elem_of_omap.
  by exists (EvOpen p).
Qed.

(** X9: a walk misses no source file of the directories it can reach:
    every directory reached from the root through names that are not
    excluded, by way of directories that can be listed and are no symbolic
    links, is listed; and every entry of such a directory that is not a
    directory (nor a link to one) and has a source extension is opened, its
    findings being part of the findings of the scan. *)
Theorem walk_scans_every_source_file
    (project_root : list string) (target_files : option (list Path.t))
    (w : world) (n : FS.node) (rel : list string)
    (es : list (string * FS.node)) (name : string) (sub : FS.node) :
  truthy target_files = false →
  FS.lookup (w_fs w) project_root = Some n →
  Forall (λ d, d ∉ SKIP_DIRS) rel →
  FS.dir_at n rel = Some es →
  (name, sub) ∈ es →
  FS.entry_is_dir (w_fs w) sub = false →
  Path.suffix name ∈ SOURCE_EXTENSIONS →
  let tr := trace_of (scan_directory project_root target_files) w in
  let p := project_root ++ rel ++ [name] in
  EvScandir (project_root ++ rel) ∈ tr
  ∧ EvOpen p ∈ tr
  ∧ ∀ f, f ∈ (scan_file p project_root w).1 →
         f ∈ (scan_directory project_root target_files w).1.
Proof.
  intros Ht Hroot Hrel Hat Hin Hdir Hext. cbv zeta.
  rewrite trace_of_scan_directory, scan_directory_extend. cbn [fst].
  destruct (walk_events_complete (w_fs w) rel n project_root es Hrel Hat)
    as [Hs Ho].
  specialize (Ho name sub Hin Hdir Hext).
  assert (Hev : dir_events (w_fs w) project_root target_files
                = walk_events (w_fs w) project_root n).
  { unfold dir_events. by rewrite Ht, Hroot. }
  rewrite Hev. split; [done|]. split; [done|].
  intros f. rewrite scan_file_extend. cbn [fst].
  apply file_findings_in_dir_findings. by rewrite Hev.
Qed.

Lemma walk_scans_every_source_file_witness :
  EvOpen ["home"; "proj"; "src"; "db.ts"]
    ∈ trace_of (scan_directory Sample.root None) Sample.w0.
Proof.
  refine (proj1 (proj2 (walk_scans_every_source_file Sample.root None Sample.w0
    (FS.Dir [
      ("a.py", FS.File (Some ("  " +:+ Sample.pw_line +:+ Sample.nl +:+
                              "// " +:+ Sample.pw_line +:+ Sample.nl +:+
                              "x = eval(y)" +:+ Sample.nl)));
      ("node_modules", FS.Dir [("lib.js", FS.File (Some "eval(x)"))]);
      ("notes.txt", FS.File (Some "password = 'zzz'"));
      ("src", FS.Dir [
         ("db.ts", FS.File (Some ("db.query(`select ${x}`)" +:+ Sample.nl +:+
                                  "Math.random()")));
         ("build", FS.Dir [("gen.js", FS.File (Some "eval(x)"))])]);
      ("secret.py", FS.File None);
      ("z.rb", FS.File (Some "verify: false"))])
    ["src"]
    [("db.ts", FS.File (Some ("db.query(`select ${x}`)" +:+ Sample.nl +:+
                              "Math.random()")));
     ("build", FS.Dir [("gen.js", FS.File (Some "eval(x)"))])]
    "db.ts"
    (FS.File (Some ("db.query(`select ${x}`)" +:+ Sample.nl +:+ "Math.random()")))
    _ _ _ _ _ _ _))).
  - reflexivity.
  - reflexivity.
  - repeat constructor. by vm_compute.
  - reflexivity.
  - left.
  - reflexivity.
  - by vm_compute.
Defined.

(** ** Explicit subsets compose *)

Lemma subset_paths_app fs project_root l1 l2 :
  subset_paths fs project_root (l1 ++ l2)
  = subset_paths fs project_root l1 ++ subset_paths fs project_root l2.
Proof. unfold subset_paths. by rewrite fmap_app, filter_app. Qed.

Lemma dir_events_subset fs project_root l :
  l ≠ [] →
  dir_events fs project_root (Some l)
  = EvOpen <$> subset_paths fs project_root l.
Proof. intros H. unfold dir_events. by destruct l. Qed.

(** X10: scanning the subset [l1 ++ l2] is scanning [l1] and then [l2]:
    the events and the findings are those of the two scans one after the
    other; nothing is merged, so a path given twice is scanned twice. *)
Theorem subset_scan_appends
    (project_root : list string) (l1 l2 : list Path.t) (w : world) :
  l1 ≠ [] → l2 ≠ [] →
  trace_of (scan_directory project_root (Some (l1 ++ l2))) w
  = trace_of (scan_directory project_root (Some l1)) w
    ++ trace_of (scan_directory project_root (Some l2)) w
  ∧ (scan_directory project_root (Some (l1 ++ l2)) w).1
    = (scan_directory project_root (Some l1) w).1
      ++ (scan_directory project_root (Some l2) w).1.
Proof.
  intros H1 H2. rewrite !trace_of_scan_directory, !scan_directory_extend.
  cbn [fst]. unfold dir_findings.
  assert (H12 : l1 ++ l2 ≠ []) by by destruct l1.
  rewrite !dir_events_subset by done.
  rewrite subset_paths_app, fmap_app. split; [done|].
  by rewrite opened_app, bind_app.
Qed.

Lemma subset_scan_appends_witness :
  [Path.mk false ["z.rb"]] ≠ []
  ∧ length (scan_directory Sample.root
              (Some ([Path.mk false ["z.rb"]] ++ [Path.mk false ["z.rb"]]))
              Sample.w0).1 = 2.
Proof.
  assert (H : [Path.mk false ["z.rb"]] ≠ []) by done.
  split; [exact H|].
  rewrite (proj2 (subset_scan_appends Sample.root _ _ Sample.w0 H H)).
  vm_compute. reflexivity.
Defined.

(** ** Relative paths *)

Lemma normpath_from_id p : ∀ stack,
  Forall plain p → Path.normpath_from stack p = stack ++ p.
Proof.
  induction p as [|c p IH]; intros stack Hp; simpl; [by rewrite app_nil_r|].
  apply Forall_cons in Hp as [(H1 & H2 & H3) Hp].
  rewrite (proj2 (String.eqb_neq c "")), (proj2 (String.eqb_neq c ".")),
    (proj2 (String.eqb_neq c "..")) by done.
  simpl. rewrite IH by done. by rewrite <- app_assoc.
Qed.

Lemma rel_list_app root rel : Path.rel_list root (root ++ rel) = rel.
Proof.
  induction root as [|c root IH]; simpl; [by destruct rel|].
  by rewrite String.eqb_refl.
Qed.

Lemma relpath_below root rel :
  Forall plain root → Forall plain rel → rel ≠ [] →
  Path.relpath (root ++ rel) root = String.concat "/" rel.
Proof.
  intros Hroot Hrel Hne. unfold Path.relpath, Path.normpath.
  rewrite !normpath_from_id by (try apply Forall_app; done). simpl.
  rewrite rel_list_app. by destruct rel.
Qed.

(** X11: the [file] of a finding is the path of its file relative to the
    root: for a root that is a list of entry names and the file at the root
    followed by the entry names [rel], it is these names joined by
    slashes. *)
Theorem finding_file_is_relative
    (project_root rel : list string) (w : world) (f : Finding) :
  Forall plain project_root → Forall plain rel → rel ≠ [] →
  f ∈ (scan_file (project_root ++ rel) project_root w).1 →
  file f = String.concat "/" rel.
Proof.
  intros Hroot Hrel Hne. rewrite scan_file_extend. cbn [fst].
  intros (_ & _ & _ & _ & -> & _)%file_findings_wellformed.
  by apply relpath_below.
Qed.

Lemma finding_file_is_relative_witness :
  ∃ f, f ∈ (scan_file (Sample.root ++ ["src"; "db.ts"]) Sample.root
              Sample.w0).1
       ∧ file f = "src/db.ts".
Proof.
  exists (mkFinding "low" "Weak Randomness" "src/db.ts" 2
    "Math.random() is not cryptographically secure — use crypto.randomBytes()"
    "Math.random()").
  assert (H : mkFinding "low" "Weak Randomness" "src/db.ts" 2
    "Math.random() is not cryptographically secure — use crypto.randomBytes()"
    "Math.random()"
    ∈ (scan_file (Sample.root ++ ["src"; "db.ts"]) Sample.root Sample.w0).1)
    by (vm_compute; right; left).
  split; [exact H|].
  refine (finding_file_is_relative Sample.root ["src"; "db.ts"] Sample.w0
            _ _ _ _ H); [| |done]; repeat constructor; done.
Defined.

(** ** What the patterns need *)

Lemma elem_of_all_chars a : In a all_chars.
Proof.
  unfold all_chars. apply in_map_iff. exists (nat_of_ascii a).
  split; [apply ascii_nat_embedding|]. apply in_seq.
  pose proof (nat_ascii_bounded a). lia.
Qed.

Lemma accepts_only_spec P accept a :
  accepts_only P accept = true → accept a = true → P a = true.
Proof.
  unfold accepts_only. rewrite forallb_forall. intros H Ha.
  specialize (H a (elem_of_all_chars a)). by rewrite Ha in H.
Qed.

Lemma append_assoc (s1 s2 s3 : string) :
  (s1 +:+ s2) +:+ s3 = s1 +:+ (s2 +:+ s3).
Proof.
  induction s1 as [|c s1 IH]; [done|].
  change (String c (s1 +:+ s2) +:+ s3 = String c (s1 +:+ (s2 +:+ s3))).
  change (String c ((s1 +:+ s2) +:+ s3) = String c (s1 +:+ (s2 +:+ s3))).
  by rewrite IH.
Qed.

Lemma has_char_app P s1 s2 :
  has_char P (s1 +:+ s2) = has_char P s1 || has_char P s2.
Proof.
  induction s1 as [|c s1 IH]; [done|].
  change (String c s1 +:+ s2) with (String c (s1 +:+ s2)). simpl.
  by rewrite IH, orb_assoc.
Qed.

Lemma matches_consumes r p s p' s' :
  Re.matches r p s p' s' → ∃ c, s = c +:+ s'.
Proof.
  induction 1; try (by exists ""); try (by eexists (String a ""));
    try done.
  - destruct IHmatches1 as [c1 ->], IHmatches2 as [c2 ->].
    exists (c1 +:+ c2). by rewrite append_assoc.
  - destruct IHmatches1 as [c1 ->], IHmatches2 as [c2 ->].
    exists (c1 +:+ c2). by rewrite append_assoc.
  - destruct IHmatches1 as [c1 ->], IHmatches2 as [c2 ->].
    exists (c1 +:+ c2). by rewrite append_assoc.
Qed.

Lemma matches_needs P r p s p' s' :
  Re.matches r p s p' s' → needs P r = true →
  ∃ c, s = c +:+ s' ∧ has_char P c = true.
Proof.
  induction 1 as [p s|c a p s E|neg ranges a p s E|a p s E|a p s E|p s E
                 |r1 r2 p s p1 s1 p2 s2 H1 IH1 H2 IH2
                 |r1 r2 p s p' s' H IH|r1 r2 p s p' s' H IH
                 |r p s|r p s p1 s1 p2 s2 H1 IH1 H2 IH2
                 |r p s p' s' H IH|n r p s p1 s1 p2 s2 H1 IH1 H2 IH2];
    simpl; intros Hn; try done.
  - exists (String a ""). split; [done|]. simpl.
    by rewrite (accepts_only_spec _ _ a Hn E).
  - exists (String a ""). split; [done|]. simpl.
    by rewrite (accepts_only_spec _ _ a Hn E).
  - exists (String a ""). split; [done|]. simpl.
    rewrite (accepts_only_spec _ _ a Hn); [done|]. by rewrite E.
  - exists (String a ""). split; [done|]. simpl.
    by rewrite (accepts_only_spec _ _ a Hn E).
  - destruct (matches_consumes _ _ _ _ _ H1) as [c1 E1].
    destruct (matches_consumes _ _ _ _ _ H2) as [c2 E2].
    apply orb_true_iff in Hn as [Hn|Hn].
    + destruct (IH1 Hn) as (c & -> & Hc). subst s1.
      exists (c +:+ c2). rewrite append_assoc. split; [done|].
      by rewrite has_char_app, Hc.
    + destruct (IH2 Hn) as (c & -> & Hc). subst s.
      exists (c1 +:+ c). rewrite append_assoc. split; [done|].
      by rewrite has_char_app, Hc, orb_true_r.
  - apply andb_true_iff in Hn as [Hn _]. by apply IH.
  - apply andb_true_iff in Hn as [_ Hn]. by apply IH.
  - destruct (IH1 Hn) as (c & -> & Hc).
    destruct (matches_consumes _ _ _ _ _ H2) as [c2 ->].
    exists (c +:+ c2). rewrite append_assoc. split; [done|].
    by rewrite has_char_app, Hc.
Qed.

Lemma search_needs P r s :
  needs P r = true → has_char P s = false → Re.search r s = false.
Proof.
  intros Hn Hs. destruct (Re.search r s) eqn:E; [|done].
  apply search_iff in E as (pre & rest & p' & s' & -> & Hm).
  destruct (matches_needs P _ _ _ _ _ Hm Hn) as (c & -> & Hc).
  rewrite !has_char_app, Hc in Hs. by rewrite orb_true_r in Hs.
Qed.

Lemma has_char_strip P line :
  has_char P line = false → has_char P (Str.strip line) = false.
Proof.
  destruct (strip_split line) as (pre & post & Heq & _).
  rewrite Heq at 1. rewrite !has_char_app.
  intros H. apply orb_false_iff in H as [_ H].
  by apply orb_false_iff in H as [H _].
Qed.

Lemma patterns_need_letter :
  ∀ r : Catalog.rule, r ∈ PATTERNS → needs is_letter r.1.1.1 = true.
Proof.
  assert (H : forallb (λ r : Catalog.rule, needs is_letter r.1.1.1) PATTERNS
              = true) by (vm_compute; reflexivity).
  intros r Hr. rewrite forallb_forall in H. by apply H, list_elem_of_In.
Qed.

Lemma secret_patterns_need_equals :
  ∀ r : Catalog.rule, r ∈ PATTERNS → r.1.2 = "Hardcoded Secret" →
    needs is_equals r.1.1.1 = true.
Proof.
  assert (H : forallb (λ r : Catalog.rule,
                implb (String.eqb r.1.2 "Hardcoded Secret")
                      (needs is_equals r.1.1.1)) PATTERNS = true)
    by (vm_compute; reflexivity).
  intros r Hr Hcat. rewrite forallb_forall in H.
  apply list_elem_of_In, H in Hr. rewrite Hcat in Hr. done.
Qed.

(** X12: a line without any ASCII letter gives no finding, whatever else it
    holds: every pattern of the catalog needs a letter.  Blank lines and
    lines of brackets, digits and punctuation are of this kind. *)
Theorem no_letter_no_finding (rel : string) (n : nat) (line : string) :
  has_char is_letter line = false → scan_line rel n line = [].
Proof.
  intros H%has_char_strip. unfold scan_line.
  destruct (is_comment _); [done|]. apply omap_none. intros r Hr.
  by rewrite (search_needs is_letter _ _ (patterns_need_letter r Hr) H).
Qed.

Lemma no_letter_no_finding_witness :
  has_char is_letter ("    });  // 12 + 3 = 15" +:+ Sample.nl) = false
  ∧ scan_line "a.js" 3 ("    });  // 12 + 3 = 15" +:+ Sample.nl) = [].
Proof.
  split; [reflexivity|]. apply no_letter_no_finding. reflexivity.
Defined.

(** X13: a line without an equals sign never gives a finding of category
    Hardcoded Secret: every pattern of that category needs one.  So a secret
    written after a colon, as in an object literal, is not reported as
    one. *)
Theorem no_equals_no_secret
    (rel : string) (n : nat) (line : string) (f : Finding) :
  has_char is_equals line = false →
  f ∈ scan_line rel n line →
  category f ≠ "Hardcoded Secret".
Proof.
  intros H%has_char_strip Hf Hcat.
  apply elem_of_scan_line in Hf as (_ & _ & _ & r & Hr & ->).
  apply list_elem_of_filter in Hr as [Hs Hr].
  destruct r as [[[pat sev] cat] msg]. simpl in *. subst cat.
  pose proof (secret_patterns_need_equals _ Hr eq_refl) as Hn. simpl in Hn.
  by rewrite (search_needs is_equals _ _ Hn H) in Hs.
Qed.

Lemma no_equals_no_secret_witness :
  has_char is_equals "eval({ password: 'abc123' })" = false
  ∧ ∃ f, f ∈ scan_line "a.js" 1 "eval({ password: 'abc123' })"
         ∧ category f ≠ "Hardcoded Secret".
Proof.
  split; [reflexivity|].
  exists (mkFinding "high" "Code Injection" "a.js" 1
            "eval() is a code injection vector — avoid entirely"
            "eval({ password: 'abc123' })").
  assert (H : mkFinding "high" "Code Injection" "a.js" 1
            "eval() is a code injection vector — avoid entirely"
            "eval({ password: 'abc123' })"
          ∈ scan_line "a.js" 1 "eval({ password: 'abc123' })")
    by (vm_compute; left).
  split; [exact H|].
  apply (no_equals_no_secret "a.js" 1 "eval({ password: 'abc123' })" _
           eq_refl H).
Defined.

(** ** What the password pattern finds *)

Section detection.
Import Re.

Ltac by_char a := destruct a as [[] [] [] [] [] [] [] []].

Lemma upper_eq_ci a c :
  Char.upper_ascii a = Char.upper_ascii c → Char.eq_ci a c = true.
Proof.
  intros H. unfold Char.eq_ci.
  rewrite <- (lower_upper a), <- (lower_upper c), H. apply Ascii.eqb_refl.
Qed.

Lemma matches_lit w : ∀ t p s,
  w ≠ "" → Str.upper_ascii t = Str.upper_ascii w →
  matches (lit w) p (t +:+ s) (before p t) s.
Proof.
  induction w as [|c w IH]; intros t p s Hne Heq; [done|].
  destruct t as [|a t]; [done|]. simpl in Heq. injection Heq as Hc Ht.
  change (String a t +:+ s) with (String a (t +:+ s)).
  destruct w as [|c' w].
  - destruct t; [|done]. simpl. constructor. by apply upper_eq_ci.
  - change (lit (String c (String c' w)))
      with (Seq (Lit c) (lit (String c' w))).
    econstructor.
    + constructor. by apply upper_eq_ci.
    + simpl before. by apply IH.
Qed.

Lemma matches_ws t : ∀ p s,
  Str.all_space t = true → matches Catalog.ws p (t +:+ s) (before p t) s.
Proof.
  induction t as [|a t IH]; intros p s H; simpl in *.
  - constructor.
  - apply andb_true_iff in H as [Ha Ht].
    change (String a t +:+ s) with (String a (t +:+ s)).
    eapply M_Star_S; [by constructor | by apply IH].
Qed.

Lemma matches_quote q p s :
  is_quote q = true → matches Catalog.quote p (String q s) (Some q) s.
Proof.
  intros H. constructor. unfold is_quote in H.
  apply orb_true_iff in H as [H|H]; apply Ascii.eqb_eq in H; by subst q.
Qed.

Lemma not_quote_class a :
  is_quote a = false →
  in_class [("034", "034"); ("'", "'")]%char a = false.
Proof. by_char a; (reflexivity || discriminate). Qed.

Lemma matches_not_quotes v : ∀ p s,
  has_char is_quote v = false →
  matches (Star Catalog.not_quote) p (v +:+ s) (before p v) s.
Proof.
  induction v as [|a v IH]; intros p s H; simpl in *.
  - constructor.
  - apply orb_false_iff in H as [Ha Hv].
    change (String a v +:+ s) with (String a (v +:+ s)).
    eapply M_Star_S; [|by apply IH].
    constructor. by rewrite (not_quote_class a Ha).
Qed.

Lemma matches_some_not_quotes v p s :
  v ≠ "" → has_char is_quote v = false →
  matches (Plus Catalog.not_quote) p (v +:+ s) (before p v) s.
Proof.
  intros Hv Hnq. destruct v as [|a v]; [done|]. simpl in Hnq.
  apply orb_false_iff in Hnq as [Ha Hv'].
  change (String a v +:+ s) with (String a (v +:+ s)). cbn [before].
  eapply M_AtLeast_S.
  - constructor. by rewrite (not_quote_class a Ha).
  - apply M_AtLeast_0. by apply matches_not_quotes.
Qed.

Lemma matches_password_rule kw s1 s2 q1 v q2 p post :
  Str.upper_ascii kw ∈ ["PASSWORD"; "PASSWD"; "PWD"] →
  Str.all_space s1 = true → Str.all_space s2 = true →
  is_quote q1 = true → is_quote q2 = true →
  v ≠ "" → has_char is_quote v = false →
  ∃ p',
    matches
      (seqs [alts ["password"; "passwd"; "pwd"]; Catalog.ws; lit "=";
             Catalog.ws; Catalog.quote; Plus Catalog.not_quote; Catalog.quote])
      p (kw +:+ s1 +:+ "=" +:+ s2 +:+ String q1 (v +:+ String q2 post))
      p' post.
Proof.
  intros Hkw Hs1 Hs2 Hq1 Hq2 Hv Hnq. eexists.
  cbn [seqs]. eapply M_Seq.
  { cbn [alts].
    apply elem_of_cons in Hkw as [Hkw|Hkw];
      [apply M_Alt_l; by apply matches_lit|].
    apply M_Alt_r.
    apply elem_of_cons in Hkw as [Hkw|Hkw];
      [apply M_Alt_l; by apply matches_lit|].
    apply M_Alt_r. apply list_elem_of_singleton in Hkw. by apply matches_lit. }
  eapply M_Seq; [by apply matches_ws|].
  eapply M_Seq; [by apply (matches_lit "=" "=")|].
  eapply M_Seq; [by apply matches_ws|].
  eapply M_Seq; [by apply matches_quote|].
  eapply M_Seq; [by apply matches_some_not_quotes | by apply matches_quote].
Qed.

End detection.

(** X14: a password assignment is always found.  When the stripped line is
    not a comment and holds, anywhere, one of the words password, passwd or
    pwd in any mix of cases, then optional white space, an equals sign,
    optional white space and a non-empty text without quotes between two
    quotes (single or double, alike or not), the line gives the finding
    of severity critical and category Hardcoded Secret. *)
Theorem password_assignment_found
    (rel : string) (n : nat) (line pre kw s1 s2 : string) (q1 : ascii)
    (v : string) (q2 : ascii) (post : string) :
  Str.strip line
    = pre +:+ kw +:+ s1 +:+ "=" +:+ s2 +:+ String q1 (v +:+ String q2 post) →
  is_comment (Str.strip line) = false →
  Str.upper_ascii kw ∈ ["PASSWORD"; "PASSWD"; "PWD"] →
  Str.all_space s1 = true → Str.all_space s2 = true →
  is_quote q1 = true → is_quote q2 = true →
  v ≠ "" → has_char is_quote v = false →
  mkFinding "critical" "Hardcoded Secret" rel n "Hardcoded password detected"
            (Str.slice_to 120 (Str.strip line))
    ∈ scan_line rel n line.
Proof.
  intros Hline Hc Hkw Hs1 Hs2 Hq1 Hq2 Hv Hnq.
  rewrite scan_line_matching by done.
  apply list_elem_of_fmap.
  exists (Re.seqs [Re.alts ["password"; "passwd"; "pwd"]; Catalog.ws;
                   Re.lit "="; Catalog.ws; Catalog.quote;
                   Re.Plus Catalog.not_quote; Catalog.quote],
          "critical", "Hardcoded Secret", "Hardcoded password detected").
  split; [done|]. apply list_elem_of_filter. split; [|left].
  cbn [fst]. apply search_iff. rewrite Hline.
  destruct (matches_password_rule kw s1 s2 q1 v q2 (Re.before None pre) post)
    as [p' Hm]; try done.
  by exists pre, (kw +:+ s1 +:+ "=" +:+ s2 +:+ String q1 (v +:+ String q2 post)),
    p', post.
Qed.

Lemma password_assignment_found_witness :
  mkFinding "critical" "Hardcoded Secret" "db.py" 9
            "Hardcoded password detected"
            "conn = connect(user, PassWd  =  'hunter2')"
    ∈ scan_line "db.py" 9
        ("    conn = connect(user, PassWd  =  'hunter2')" +:+ Sample.nl).
Proof.
  apply (password_assignment_found "db.py" 9
           ("    conn = connect(user, PassWd  =  'hunter2')" +:+ Sample.nl)
           "conn = connect(user, " "PassWd" "  " "  " "'" "hunter2" "'" ")");
    try reflexivity; try done.
  right; left.
Defined.

(** ** Edges of the scan *)

Lemma exit_status_app l1 l2 :
  exit_status (l1 ++ l2) ≠ 0 ↔ exit_status l1 ≠ 0 ∨ exit_status l2 ≠ 0.
Proof.
  rewrite !exit_status_critical. split.
  - intros (f & [H|H]%elem_of_app & Hs); [left | right]; eauto.
  - intros [(f & H & Hs)|(f & H & Hs)]; exists f; rewrite elem_of_app; eauto.
Qed.

(** X15: a walk from a root that is not a directory does nothing: no
    directory is listed, no file is opened and there are no findings. *)
Theorem walk_of_non_directory
    (project_root : list string) (target_files : option (list Path.t))
    (w : world) :
  truthy target_files = false →
  FS.isdir (w_fs w) project_root = false →
  scan_directory project_root target_files w = ([], w).
Proof.
  intros Ht Hdir. rewrite scan_directory_extend.
  unfold dir_findings, dir_events. rewrite Ht. unfold FS.isdir in Hdir.
  destruct (FS.lookup (w_fs w) project_root) as [[c|es|es|target]|];
    try done; by rewrite extend_nil.
Qed.

Lemma walk_of_non_directory_witness :
  truthy (None : option (list Path.t)) = false
  ∧ FS.isdir (w_fs Sample.w0) ["home"; "proj"; "a.py"] = false
  ∧ scan_directory ["home"; "proj"; "a.py"] None Sample.w0 = ([], Sample.w0).
Proof.
  split; [reflexivity|]. split; [reflexivity|].
  apply walk_of_non_directory; reflexivity.
Defined.

(** X16: the verdict of a scan of the subset [l1 ++ l2] is the worse of the
    verdicts of the scans of [l1] and of [l2]: the run fails exactly when
    one of the two runs fails. *)
Theorem verdict_of_joined_subsets
    (p : Path.t) (floor : string) (l1 l2 : list Path.t) (w : world) :
  l1 ≠ [] → l2 ≠ [] →
  FS.isdir (w_fs w) (Path.abspath (w_cwd w) p) = true →
  (main (mkArgs p floor (Some (l1 ++ l2))) w).1 ≠ 0 ↔
  (main (mkArgs p floor (Some l1)) w).1 ≠ 0
  ∨ (main (mkArgs p floor (Some l2)) w).1 ≠ 0.
Proof.
  intros H1 H2 Hdir. rewrite !main_extend. cbn [fst].
  unfold main_status. cbn [a_path a_files]. rewrite Hdir.
  assert (H12 : l1 ++ l2 ≠ []) by by destruct l1.
  unfold dir_findings. rewrite !dir_events_subset by done.
  rewrite subset_paths_app, fmap_app, opened_app, bind_app.
  apply exit_status_app.
Qed.

Lemma verdict_of_joined_subsets_witness :
  [Path.mk false ["z.rb"]] ≠ [] ∧ [Path.mk false ["a.py"]] ≠ []
  ∧ FS.isdir (w_fs Sample.w0) (Path.abspath (w_cwd Sample.w0) Sample.here)
    = true
  ∧ (main (mkArgs Sample.here "low"
             (Some ([Path.mk false ["z.rb"]] ++ [Path.mk false ["a.py"]])))
       Sample.w0).1 ≠ 0.
Proof.
  assert (H1 : [Path.mk false ["z.rb"]] ≠ []) by done.
  assert (H2 : [Path.mk false ["a.py"]] ≠ []) by done.
  assert (Hd : FS.isdir (w_fs Sample.w0)
                 (Path.abspath (w_cwd Sample.w0) Sample.here) = true)
    by reflexivity.
  split; [exact H1|]. split; [exact H2|]. split; [exact Hd|].
  apply (verdict_of_joined_subsets Sample.here "low" _ _ Sample.w0 H1 H2 Hd).
  right. by vm_compute.
Defined.
